(** * ASCII-Webcam: the glyph mapper, the resize step and the diff renderer

    A shallow embedding of [main.py].  Python's [float] is IEEE-754 binary64,
    which is exactly Rocq's primitive [float]; Python's unbounded [int] is [Z];
    the two dictionaries [lastFrame] and [charMap] are finite maps keyed by the
    cell position [(x, y)]; the Tk canvas is the list of the text items created
    so far, an item's id being its 1-based rank of creation. *)

From Stdlib Require Import ZArith Lia Ascii String List Reals Lra.
From Stdlib Require Import PrimFloat FloatOps SpecFloat FloatAxioms Uint63.
From stdpp Require Import gmap strings list.

Local Open Scope Z_scope.

(** ** Python numbers *)

Module Py.

(** The conversion of an int operand to [float], for an int that fits 63
    bits; it is exact below 2^53, which covers all the program converts:
    pixel values and frame dimensions. *)
Definition float_of_int (n : Z) : float :=
  if n <? 0 then PrimFloat.opp (PrimFloat.of_uint63 (Uint63.of_Z (- n)))
  else PrimFloat.of_uint63 (Uint63.of_Z n).

(** [int(f)]: truncation toward zero; [None] stands for the OverflowError
    (infinities) and ValueError (NaN) that Python raises. *)
Definition int_of_float (f : float) : option Z :=
  match Prim2SF f with
  | S754_zero _ => Some 0
  | S754_finite s m e =>
      let a := match e with
               | Zneg p => Z.shiftr (Zpos m) (Zpos p)
               | _ => Z.shiftl (Zpos m) e
               end in
      Some (if s then - a else a)
  | S754_infinity _ => None
  | S754_nan => None
  end.

(** [a / b] on two ints, Python's true division: the correctly rounded
    quotient, which for operands below 2^53 is the binary64 division of
    their conversions; [None] is ZeroDivisionError. *)
Definition truediv (a b : Z) : option float :=
  if b =? 0 then None
  else Some (PrimFloat.div (float_of_int a) (float_of_int b)).

(** [round(n / d)] for the exact quotient of two ints, [d > 0]: the nearest
    integer, a tie going to the even one. *)
Definition round_div (n d : Z) : Z :=
  let q := n / d in
  let r := n mod d in
  if 2 * r <? d then q
  else if d <? 2 * r then q + 1
  else if Z.even q then q else q + 1.

(** Arithmetic on numpy's [uint8] scalars, as NumPy 2 types it: the result
    is a [uint8] again and wraps modulo 256.  (The older promotion rules
    widen to [int64] instead; the two agree wherever the program computes,
    since line 95 guards the subtraction and 3 * 64 fits a byte.) *)
Definition uint8_sub (a b : Z) : Z := (a - b) mod 256.
Definition uint8_mul (a b : Z) : Z := (a * b) mod 256.

(** The format spec [:02x]: lower-case hexadecimal, zero-padded to two
    digits, longer when the number needs it. *)
Definition hex_digit (d : Z) : ascii :=
  match d with
  | 0 => "0" | 1 => "1" | 2 => "2" | 3 => "3" | 4 => "4" | 5 => "5"
  | 6 => "6" | 7 => "7" | 8 => "8" | 9 => "9" | 10 => "a" | 11 => "b"
  | 12 => "c" | 13 => "d" | 14 => "e" | _ => "f"
  end%char.

Fixpoint hex_from (fuel : nat) (n : Z) (acc : string) : string :=
  let acc' := String (hex_digit (n mod 16)) acc in
  match fuel with
  | O => acc'
  | S fuel' => if n <? 16 then acc' else hex_from fuel' (n / 16) acc'
  end.

Definition hex (n : Z) : string := hex_from (Z.to_nat (Z.log2 n)) n EmptyString.

Definition format_02x (n : Z) : string :=
  let s := hex n in
  if (String.length s <? 2)%nat then String "0"%char s else s.

End Py.

(** ** GlyphMapper: brightness to glyph, colour quantisation *)

Module GlyphMapper.

Definition ASCII_CHARS : string := "@%#*+=-:. ".

Definition rampLength : Z := Z.of_nat (String.length ASCII_CHARS).

(** Cells darker than this are skipped ([if brightness < 10: continue]). *)
Definition threshold : Z := 10.

(** Line 100: [int((brightness - 10) / (255 - 10) * (len(ASCII_CHARS) - 1))].
    [brightness] is a numpy [uint8] and so is the difference [d]; the
    division and the product are binary64. *)
Definition rampFloat (d : Z) : float :=
  PrimFloat.mul (PrimFloat.div (Py.float_of_int d) (Py.float_of_int (255 - 10)))
                (Py.float_of_int (rampLength - 1)).

Definition rawIndex (brightness : Z) : option Z :=
  Py.int_of_float (rampFloat (Py.uint8_sub brightness 10)).

(** Line 101: [max(0, min(len(ASCII_CHARS) - 1, idx))]. *)
Definition clampIndex (idx : Z) : Z := Z.max 0 (Z.min (rampLength - 1) idx).

Definition glyphIndex (brightness : Z) : option Z :=
  option_map clampIndex (rawIndex brightness).

(** Line 102: [ASCII_CHARS[idx]]; [None] is IndexError. *)
Definition glyph (brightness : Z) : option ascii :=
  match glyphIndex brightness with
  | Some idx => String.get (Z.to_nat idx) ASCII_CHARS
  | None => None
  end.

(** The index as the specification words it, to be compared with
    [glyphIndex]: [round((b-10)/(255-10) * (rampLength-1))], clamped. *)
Definition specIndex (brightness : Z) : Z :=
  clampIndex (Py.round_div ((brightness - 10) * (rampLength - 1)) (255 - 10)).

(** Lines 39-41 of [compressColor], one channel: [(c // 64) * 64]. *)
Definition quantChannel (c : Z) : Z := Py.uint8_mul (c / 64) 64.

(** The three channel assignments of [compressColor]. *)
Definition quantize (c : Z * Z * Z) : Z * Z * Z :=
  let '(r, g, b) := c in (quantChannel r, quantChannel g, quantChannel b).

(** Line 42: the f-string [#rrggbb]. *)
Definition hexColor (c : Z * Z * Z) : string :=
  let '(r, g, b) := c in
  String "#"%char (Py.format_02x r ++ Py.format_02x g ++ Py.format_02x b)%string.

Definition compressColor (r g b : Z) : string := hexColor (quantize (r, g, b)).

(** The four levels a quantised channel can take. *)
Definition isLevel (q : Z) : Prop := q = 0 \/ q = 64 \/ q = 128 \/ q = 192.

End GlyphMapper.

(** ** FrameTransform: the proportional resize *)

Module Resize.

(** The literal [0.55]: the binary64 nearest to 55/100. *)
Definition ratio_055 : float := 0x1.199999999999ap-1%float.

(** [resizeFrame], lines 13-15, on the frame's [shape[:2]]: it returns the
    size [(newWidth, newHeight)] that line 16 asks [cv2.resize] for.
    [None] is the exception Python raises: ZeroDivisionError for a frame of
    width 0, OverflowError or ValueError when the product is not finite. *)
Definition resizeFrame (height width newWidth : Z) : option (Z * Z) :=
  match Py.truediv height width with
  | None => None
  | Some aspectRatio =>
      match Py.int_of_float
              (PrimFloat.mul (PrimFloat.mul (Py.float_of_int newWidth) aspectRatio)
                             ratio_055) with
      | None => None
      | Some newHeight => Some (newWidth, newHeight)
      end
  end.

(** The default of the keyword argument, which is also what [updateCanvas]
    passes. *)
Definition defaultWidth : Z := 150.


(** Line 16, [cv2.resize(frame, (newWidth, newHeight), ...)], as far as
    the shape goes: OpenCV refuses an empty size (a width or a height that
    is not positive) with [cv2.error], here [None]; otherwise the frame it
    returns has [newHeight] rows and [newWidth] columns. *)
Definition resizedShape (dsize : Z * Z) : option (Z * Z) :=
  let '(newWidth, newHeight) := dsize in
  if (0 <? newWidth) && (0 <? newHeight) then Some (newHeight, newWidth) else None.

(** The [shape[:2]] of the frame [resizeFrame] returns, lines 13-16. *)
Definition resizeFrameShape (height width newWidth : Z) : option (Z * Z) :=
  match resizeFrame height width newWidth with
  | Some dsize => resizedShape dsize
  | None => None
  end.

End Resize.

(** ** DiffRenderer: [renderAscii] and its closure [updateCanvas] *)

Module Renderer.

Import GlyphMapper.

(** A cell position [(x, y)] and what [lastFrame] records for it. *)
Abbreviation Pos := (nat * nat)%type.
Abbreviation Cell := (ascii * string)%type.

(** What lines 83-87 hand to the two loops: the processed BGR frame and its
    grayscale, two numpy arrays of the same [rows] by [cols] shape, indexed
    [y] first. *)
Record Frame := mkFrame {
  rows : nat;
  cols : nat;
  gray : nat -> nat -> Z;
  processed : nat -> nat -> Z * Z * Z
}.

(** A text item of the Tk canvas, with the options [create_text] is given. *)
Record TextItem := mkItem {
  item_x : Z;
  item_y : Z;
  item_text : ascii;
  item_fill : string;
  item_font : string;
  item_anchor : string;
  item_tags : string
}.

(** The calls [updateCanvas] makes on its collaborators, in order. *)
Inductive Call :=
| create_text (id : nat) (x y : Z) (text : ascii) (fill : string)
| itemconfig (id : nat) (text : ascii) (fill : string)
| after (ms : Z).

(** The variables of [renderAscii] that [updateCanvas] closes over, and the
    canvas: item [id] is [items !! (id - 1)]. *)
Record State := mkState {
  lastFrame : gmap Pos Cell;
  charMap : gmap Pos nat;
  items : list TextItem
}.

Definition initial : State := mkState ∅ ∅ [].

Definition cellWidth : Z := 5.
Definition cellHeight : Z := 9.

(** What one activation of [updateCanvas] reads from outside: the fetcher's
    frame (after lines 83-87), and the canvas size.  An activation in which
    lines 83-87 raise has no processed frame and is not a [Tick]: the
    statements below are about the activations that get past line 87 or
    return at line 81. *)
Record Tick := mkTick {
  frame : option Frame;
  winfo_width : Z;
  winfo_height : Z
}.

(** Lines 89-90. *)
Definition margin (avail : Z) (cells : nat) (cellSize : Z) : Z :=
  Z.max 0 ((avail - Z.of_nat cells * cellSize) / 2).

Definition canvas_itemconfig (id : nat) (text : ascii) (fill : string)
    (its : list TextItem) : list TextItem :=
  match id with
  | O => its
  | S k =>
      alter (fun it => mkItem (item_x it) (item_y it) text fill
                              (item_font it) (item_anchor it) (item_tags it)) k its
  end.

(** Lines 104-120: the diff against [lastFrame], then update or create. *)
Definition drawCell (marginX marginY : Z) (pos : Pos) (c : Cell)
    (r : State * list Call) : State * list Call :=
  let '(s, log) := r in
  let '(char, color) := c in
  if decide (lastFrame s !! pos = Some (char, color)) then r
  else
    let lf := <[pos := (char, color)]> (lastFrame s) in
    match charMap s !! pos with
    | Some h =>
        (mkState lf (charMap s) (canvas_itemconfig h char color (items s)),
         log ++ [itemconfig h char color])
    | None =>
        let h := S (length (items s)) in
        let px := marginX + Z.of_nat (fst pos) * cellWidth in
        let py := marginY + Z.of_nat (snd pos) * cellHeight in
        (mkState lf (<[pos := h]> (charMap s))
                 (items s ++ [mkItem px py char color "TkFixedFont" "nw" "asciiFrame"]),
         log ++ [create_text h px py char color])
    end.

(** Lines 94-102: the cell of the glyph mapping at [(x, y)]; [Some None] is
    a cell below the threshold (the [continue] of line 96), [None] an
    exception. *)
Definition mapCell (f : Frame) (x y : nat) : option (option Cell) :=
  let brightness := gray f y x in
  if brightness <? threshold then Some None
  else
    let '(b, g, r) := processed f y x in
    let color := compressColor r g b in
    match glyph brightness with
    | Some char => Some (Some (char, color))
    | None => None
    end.

(** The body of the inner loop. *)
Definition visitCell (f : Frame) (marginX marginY : Z) (y x : nat)
    (r : State * list Call) : option (State * list Call) :=
  match mapCell f x y with
  | None => None
  | Some None => Some r
  | Some (Some c) => Some (drawCell marginX marginY (x, y) c r)
  end.

(** [for a in l: body], where the body may raise. *)
Fixpoint forEach {A S : Type} (body : A -> S -> option S) (l : list A) (s : S)
    : option S :=
  match l with
  | [] => Some s
  | a :: l' =>
      match body a s with
      | Some s' => forEach body l' s'
      | None => None
      end
  end.

(** Lines 92-120. *)
Definition renderLoop (f : Frame) (marginX marginY : Z)
    (r : State * list Call) : option (State * list Call) :=
  forEach (fun y => forEach (visitCell f marginX marginY y) (seq 0 (cols f)))
          (seq 0 (rows f)) r.

(** One activation of [updateCanvas]: the state after it and the calls it
    made. *)
Definition updateCanvas (t : Tick) (s : State) : option (State * list Call) :=
  match frame t with
  | None => Some (s, [after 1])
  | Some f =>
      let marginX := margin (winfo_width t) (cols f) cellWidth in
      let marginY := margin (winfo_height t) (rows f) cellHeight in
      match renderLoop f marginX marginY (s, []) with
      | Some (s', log) => Some (s', log ++ [after 1])
      | None => None
      end
  end.

(** The states a session goes through: [renderAscii] starts from the two
    empty dictionaries and an empty canvas, and every activation is one
    [updateCanvas]. *)
Inductive reachable : State -> Prop :=
| reach_initial : reachable initial
| reach_tick s t s' log :
    reachable s -> updateCanvas t s = Some (s', log) -> reachable s'.

(** The id a call acts on. *)
Definition call_id (c : Call) : option nat :=
  match c with
  | create_text id _ _ _ _ => Some id
  | itemconfig id _ _ => Some id
  | after _ => None
  end.

(** The item a handle shows. *)
Definition shown (s : State) (h : nat) : option TextItem :=
  match h with O => None | S k => items s !! k end.

(** The glyph mapping of a frame, the sparse map of the visible cells to
    their (glyph, colour): what [mapCell] yields inside the frame. *)
Definition cellOf (f : Frame) (p : Pos) : option Cell :=
  match mapCell f (fst p) (snd p) with
  | Some oc => oc
  | None => None
  end.

Definition glyphMapping (f : Frame) (p : Pos) : option Cell :=
  if decide ((fst p < cols f)%nat /\ (snd p < rows f)%nat) then cellOf f p else None.

(** The positions in the order the two loops visit them. *)
Definition positions (f : Frame) : list Pos :=
  flat_map (fun y => map (fun x => (x, y)) (seq 0 (cols f))) (seq 0 (rows f)).

(** One cell visit and a run of visits, as total functions. *)
Definition step (f : Frame) (marginX marginY : Z)
    (r : State * list Call) (p : Pos) : State * list Call :=
  match cellOf f p with
  | Some c => drawCell marginX marginY p c r
  | None => r
  end.

Definition drawAll (f : Frame) (marginX marginY : Z) (ps : list Pos)
    (r : State * list Call) : State * list Call :=
  fold_left (step f marginX marginY) ps r.

(** The positions of a run that are not below the threshold. *)
Definition visible (f : Frame) (ps : list Pos) : list Pos :=
  filter (fun p => is_Some (cellOf f p)) ps.

(** The cell visits of one activation that has a frame. *)
Definition tickRun (t : Tick) (fr : Frame) (s : State) : State * list Call :=
  drawAll fr (margin (winfo_width t) (cols fr) cellWidth)
             (margin (winfo_height t) (rows fr) cellHeight)
             (positions fr) (s, []).

(** The three outcomes of a visit: nothing, an update of the position's
    item, or the creation of its item. *)
Inductive visit_outcome (f : Frame) (marginX marginY : Z) (s : State) (p : Pos) :
    State * list Call -> Prop :=
| visit_skip :
    (forall c, cellOf f p = Some c -> lastFrame s !! p = Some c) ->
    visit_outcome f marginX marginY s p (s, [])
| visit_update ch co h :
    cellOf f p = Some (ch, co) ->
    lastFrame s !! p <> Some (ch, co) ->
    charMap s !! p = Some h ->
    visit_outcome f marginX marginY s p
      (mkState (<[p := (ch, co)]> (lastFrame s)) (charMap s)
               (canvas_itemconfig h ch co (items s)),
       [itemconfig h ch co])
| visit_create ch co :
    cellOf f p = Some (ch, co) ->
    lastFrame s !! p <> Some (ch, co) ->
    charMap s !! p = None ->
    visit_outcome f marginX marginY s p
      (mkState (<[p := (ch, co)]> (lastFrame s))
               (<[p := S (length (items s))]> (charMap s))
               (items s ++ [mkItem (marginX + Z.of_nat p.1 * cellWidth)
                                   (marginY + Z.of_nat p.2 * cellHeight)
                                   ch co "TkFixedFont" "nw" "asciiFrame"]),
       [create_text (S (length (items s)))
                    (marginX + Z.of_nat p.1 * cellWidth)
                    (marginY + Z.of_nat p.2 * cellHeight) ch co]).

(** What holds of every state of a session. *)
Record Inv (s : State) : Prop := mkInv {
  inv_dom : dom (lastFrame s) = dom (charMap s);
  inv_handle : forall p h, charMap s !! p = Some h -> (1 <= h <= length (items s))%nat;
  inv_inj : forall p q h, charMap s !! p = Some h -> charMap s !! q = Some h -> p = q;
  inv_size : size (charMap s) = length (items s);
  inv_shown : forall p h, charMap s !! p = Some h ->
    exists it, shown s h = Some it /\ lastFrame s !! p = Some (item_text it, item_fill it)
}.

(** The ids the calls of a tick act on. *)
Definition call_ids (log : list Call) : list nat := omap call_id log.

(** The grid is centred when the free space left of it and right of it (above
    and below) differ by at most the odd pixel. *)
Definition centred (m avail extent : Z) : Prop :=
  0 <= m /\ 0 <= (avail - extent - m) - m <= 1.

End Renderer.

(** ** Binary64 values *)

Module Binary64.

Definition bpow (e : Z) : R := powerRZ 2 e.

(** The relative error this development grants one operation. *)
Definition u : R := (/ 2251799813685248)%R.

End Binary64.

(** ** Scenes used to exercise the statements *)

Module Scenes.

Import Renderer.

(** A frame of one grey level. *)
Definition flatFrame (rows cols : nat) (b : Z) : Frame :=
  mkFrame rows cols (fun _ _ => b) (fun _ _ => (b, b, b)).

(** Two cells side by side: a dark one (brightness 5) and a lit one. *)
Definition pairFrame : Frame :=
  mkFrame 1 2 (fun _ x => match x with O => 5 | _ => 200 end)
              (fun _ x => match x with O => (5, 5, 5) | _ => (200, 70, 5) end).

(** The 900x600 window of [main]. *)
Definition window (fr : option Frame) : Tick := mkTick fr 900 600.

(** The window shrunk to its [minsize]. *)
Definition smallWindow (fr : option Frame) : Tick := mkTick fr 300 200.

(** The state after a first frame whose only cell has brightness 50. *)
Definition afterFifty : State :=
  match updateCanvas (window (Some (flatFrame 1 1 50))) initial with
  | Some (s, _) => s
  | None => initial
  end.

(** The state after a first frame with a dark and a lit cell. *)
Definition afterPair : State :=
  match updateCanvas (window (Some pairFrame)) initial with
  | Some (s, _) => s
  | None => initial
  end.

End Scenes.

(** ** Sessions of the renderer *)

Module Session.

Import Renderer.

(** A cell of the frame that the diff of line 105 lets through: it is
    visible and [lastFrame] does not already hold its (glyph, colour). *)
Definition changed (s : State) (fr : Frame) (p : Pos) : bool :=
  match cellOf fr p with
  | Some c => negb (bool_decide (lastFrame s !! p = Some c))
  | None => false
  end.

(** The activations of a session, one [updateCanvas] after the other. *)
Fixpoint runTicks (ts : list Tick) (s : State) : option State :=
  match ts with
  | [] => Some s
  | t :: ts' =>
      match updateCanvas t s with
      | Some (s', _) => runTicks ts' s'
      | None => None
      end
  end.

(** A tick whose frame, if it has one, is no larger than [R] rows by [C]
    columns. *)
Definition within (R C : nat) (t : Tick) : Prop :=
  forall fr, frame t = Some fr -> (rows fr <= R)%nat /\ (cols fr <= C)%nat.

(** The options every text item is created with. *)
Definition styled (it : TextItem) : Prop :=
  item_font it = "TkFixedFont"%string /\ item_anchor it = "nw"%string
  /\ item_tags it = "asciiFrame"%string.

(** The one canvas call a changed cell [p] gets: an [itemconfig] of its
    item when it had a handle before the activation, the [create_text] of
    its item, at the cell's place, when it had none. *)
Definition call_for (fr : Frame) (marginX marginY : Z) (s s' : State)
    (p : Pos) (c : Call) : Prop :=
  exists ch co,
    cellOf fr p = Some (ch, co) /\ lastFrame s !! p <> Some (ch, co)
    /\ match charMap s !! p with
       | Some h => c = itemconfig h ch co
       | None =>
           exists h,
             c = create_text h (marginX + Z.of_nat p.1 * cellWidth)
                             (marginY + Z.of_nat p.2 * cellHeight) ch co
             /\ charMap s' !! p = Some h
       end.

(** A run that redraws a cell in a shrunk window, then draws a new cell in
    the full window, and the state it ends in. *)
Definition resizedRun : list Tick :=
  [Scenes.smallWindow (Some (Scenes.flatFrame 1 1 200));
   Scenes.window (Some Scenes.pairFrame)].

Definition afterResizedRun : State :=
  match runTicks resizedRun Scenes.afterFifty with
  | Some s => s
  | None => Scenes.afterFifty
  end.

End Session.

(** ** FrameSource: the [FrameFetcher] thread *)

Module Fetcher.

(** Where the thread of [run] stands: at the loop test of line 54, about
    to read the camera (line 55), holding a frame it is about to store
    under the lock (lines 57-58), about to sleep (line 61), or out of the
    loop. *)
Inductive Pc (F : Type) :=
| AtCheck
| AtRead
| AtWrite (frame : F)
| AtSleep
| Exited.

Arguments AtCheck {F}.
Arguments AtRead {F}.
Arguments AtWrite {F} frame.
Arguments AtSleep {F}.
Arguments Exited {F}.

(** The fields of the object that the two threads share, and the thread's
    position.  ([cam] is the device: what it returns is an input.) *)
Record St (F : Type) := mkSt {
  pc : Pc F;
  currentFrame : option F;
  isRunning : bool
}.

Arguments mkSt {F} pc currentFrame isRunning.
Arguments pc {F} s.
Arguments currentFrame {F} s.
Arguments isRunning {F} s.

(** The atomic steps.  The capture thread's: the loop test, [cam.read()]
    with what the device returns ([None] for [success = False]), the store
    under the lock, the sleep.  The render thread's: [getFrame] (the read
    and copy under the same lock) and the assignment of [stop]; the
    [cam.release()] that follows it acts on the device only, whose reads
    are inputs here and may be anything. *)
Inductive Event (F : Type) :=
| Check
| Read (result : option F)
| Write
| Sleep
| GetFrame
| Stop.

Arguments Check {F}.
Arguments Read {F} result.
Arguments Write {F}.
Arguments Sleep {F}.
Arguments GetFrame {F}.
Arguments Stop {F}.

(** [__init__] followed by [start()]. *)
Definition init {F : Type} : St F := mkSt AtCheck None true.

(** [getFrame]: a copy of the current frame, or [None]. *)
Definition getFrame {F : Type} (s : St F) : option F := currentFrame s.

(** One step; [None] when the event is not the thread's next statement. *)
Definition fire {F : Type} (e : Event F) (s : St F) : option (St F) :=
  match e, pc s with
  | Check, AtCheck =>
      Some (mkSt (if isRunning s then AtRead else Exited) (currentFrame s) (isRunning s))
  | Read (Some frame), AtRead =>
      Some (mkSt (AtWrite frame) (currentFrame s) (isRunning s))
  | Read None, AtRead =>
      Some (mkSt Exited (currentFrame s) (isRunning s))
  | Write, AtWrite frame =>
      Some (mkSt AtSleep (Some frame) (isRunning s))
  | Sleep, AtSleep =>
      Some (mkSt AtCheck (currentFrame s) (isRunning s))
  | GetFrame, _ => Some s
  | Stop, _ => Some (mkSt (pc s) (currentFrame s) false)
  | _, _ => None
  end.

(** An interleaving of the two threads. *)
Fixpoint run {F : Type} (es : list (Event F)) (s : St F) : option (St F) :=
  match es with
  | [] => Some s
  | e :: es' =>
      match fire e s with
      | Some s' => run es' s'
      | None => None
      end
  end.

(** The frames the camera delivered, in order. *)
Definition delivered {F : Type} (es : list (Event F)) : list F :=
  omap (fun e => match e with Read r => r | _ => None end) es.

Definition is_read {F : Type} (e : Event F) : bool :=
  match e with Read _ => true | _ => false end.

Definition is_write {F : Type} (e : Event F) : bool :=
  match e with Write => true | _ => false end.

(** How many reads and stores the thread can still make once [isRunning]
    is false, from where it stands. *)
Definition reads_left {F : Type} (p : Pc F) : nat :=
  match p with AtRead => 1 | _ => 0 end.

Definition writes_left {F : Type} (p : Pc F) : nat :=
  match p with AtRead | AtWrite _ => 1 | _ => 0 end.

(** The steps of the render thread. *)
Definition by_renderer {F : Type} (e : Event F) : Prop :=
  e = GetFrame \/ e = Stop.

End Fetcher.

(** ** The palette *)

Module Palette.

(** The first hexadecimal digit of the channel level [64 * k]. *)
Definition levelDigit (k : Z) : ascii :=
  match k with
  | 0 => "0" | 1 => "4" | 2 => "8" | _ => "c"
  end%char.

(** [#X0Y0Z0]. *)
Definition colourString (kr kg kb : Z) : string :=
  String "#" (String (levelDigit kr) (String "0" (String (levelDigit kg)
    (String "0" (String (levelDigit kb) (String "0" EmptyString)))))).

End Palette.

(** ** Sample evaluations *)

Example glyphIndex_24 : GlyphMapper.glyphIndex 24 = Some 0.
Proof. vm_compute. reflexivity. Qed.

Example glyphIndex_255 : GlyphMapper.glyphIndex 255 = Some 9.
Proof. vm_compute. reflexivity. Qed.

Example compressColor_ex : GlyphMapper.compressColor 200 70 5 = "#c04000"%string.
Proof. vm_compute. reflexivity. Qed.

(** ** The brightness ramp *)

Section Ramp.

Import GlyphMapper.

(** A property checked on every [d] below [n] holds on every such [d]. *)
Lemma forallb_below (P : Z -> bool) (n : nat) :
  forallb P (map Z.of_nat (seq 0 n)) = true ->
  forall d, 0 <= d < Z.of_nat n -> P d = true.
Proof.
  intros Hall d Hd. rewrite forallb_forall in Hall. apply Hall.
  apply in_map_iff. exists (Z.to_nat d). split; [lia |].
  apply in_seq. lia.
Qed.

(** On each of the 256 [uint8] values the binary64 computation truncates
    to the integer quotient: rounding never crosses an integer. *)
Lemma rampFloat_floor (d : Z) :
  0 <= d < 256 ->
  Py.int_of_float (rampFloat d) = Some (d * (rampLength - 1) / (255 - 10)).
Proof.
  intros Hd.
  pose (P := fun d => match Py.int_of_float (rampFloat d) with
                      | Some i => i =? d * (rampLength - 1) / (255 - 10)
                      | None => false
                      end).
  assert (HP : P d = true).
  { apply (forallb_below P 256); [vm_compute; reflexivity | exact Hd]. }
  unfold P in HP. destruct (Py.int_of_float (rampFloat d)); [| discriminate].
  f_equal. lia.
Qed.

Lemma rawIndex_floor (b : Z) :
  rawIndex b = Some (Py.uint8_sub b 10 * (rampLength - 1) / (255 - 10)).
Proof.
  unfold rawIndex. apply (rampFloat_floor (Py.uint8_sub b 10)).
  unfold Py.uint8_sub. apply Z.mod_pos_bound. lia.
Qed.

Lemma rawIndex_visible (b : Z) :
  10 <= b <= 255 -> rawIndex b = Some ((b - 10) * 9 / 245).
Proof.
  intros Hb. rewrite rawIndex_floor. unfold Py.uint8_sub.
  rewrite Z.mod_small by lia. reflexivity.
Qed.

Lemma clampIndex_range (i : Z) : 0 <= clampIndex i <= 9.
Proof. unfold clampIndex. change (rampLength - 1) with 9. lia. Qed.

Lemma ramp_get (i : Z) :
  0 <= i <= 9 -> exists c, String.get (Z.to_nat i) ASCII_CHARS = Some c.
Proof.
  intros Hi.
  assert (Hn : (Z.to_nat i < 10)%nat) by lia.
  destruct (Z.to_nat i) as [|[|[|[|[|[|[|[|[|[|n]]]]]]]]]];
    try (eexists; reflexivity); lia.
Qed.

(** Lines 100-102 never raise: every brightness has a glyph. *)
Lemma glyph_total (b : Z) : exists c, glyph b = Some c.
Proof.
  unfold glyph, glyphIndex. rewrite rawIndex_floor. cbn [option_map].
  apply ramp_get, clampIndex_range.
Qed.

(** C1, as amended. On the visible range the index is the integer part of
    [(b-10)/(255-10) * (rampLength-1)], which [int] truncates rather than
    rounds; it lies in [0, rampLength-1], so the clamp leaves it as it is. *)
Theorem glyphIndex_truncates (b : Z) :
  10 <= b <= 255 ->
  glyphIndex b = Some (clampIndex ((b - 10) * (rampLength - 1) / (255 - 10)))
  /\ glyphIndex b = Some ((b - 10) * (rampLength - 1) / (255 - 10))
  /\ 0 <= (b - 10) * (rampLength - 1) / (255 - 10) <= rampLength - 1.
Proof.
  intros Hb. unfold glyphIndex. rewrite (rawIndex_visible b Hb).
  change (rampLength - 1) with 9. change (255 - 10) with 245. cbn [option_map].
  assert (Hr : 0 <= (b - 10) * 9 / 245 <= 9).
  { split; [apply Z.div_pos; lia |].
    apply Z.div_le_upper_bound; lia. }
  unfold clampIndex. change (rampLength - 1) with 9.
  rewrite Z.min_r, Z.max_r by lia. auto.
Qed.

Lemma glyphIndex_truncates_witness :
  glyphIndex 24 = Some (clampIndex ((24 - 10) * (rampLength - 1) / (255 - 10)))
  /\ glyphIndex 24 = Some ((24 - 10) * (rampLength - 1) / (255 - 10))
  /\ 0 <= (24 - 10) * (rampLength - 1) / (255 - 10) <= rampLength - 1.
Proof. apply (glyphIndex_truncates 24). lia. Defined.

(** C1, as stated, fails at brightness 24: (24-10)/245*9 is 0.514..., which
    rounds to 1, and the code yields index 0. *)
Lemma glyphIndex_not_rounded :
  10 <= 24 <= 255 /\ glyphIndex 24 <> Some (specIndex 24).
Proof. split; [lia |]. vm_compute. discriminate. Qed.

(** C7. Over the visible range a brighter cell never gets an earlier
    glyph of the ramp. *)
Theorem glyphIndex_monotone (b1 b2 : Z) :
  10 <= b1 -> b1 <= b2 -> b2 <= 255 ->
  exists i1 i2,
    glyphIndex b1 = Some i1 /\ glyphIndex b2 = Some i2 /\ i1 <= i2.
Proof.
  intros H1 H12 H2.
  destruct (glyphIndex_truncates b1) as (_ & E1 & _); [lia |].
  destruct (glyphIndex_truncates b2) as (_ & E2 & _); [lia |].
  eexists _, _. split; [exact E1 |]. split; [exact E2 |].
  change (rampLength - 1) with 9.
  apply Z.div_le_mono; lia.
Qed.

Lemma glyphIndex_monotone_witness :
  exists i1 i2,
    glyphIndex 50 = Some i1 /\ glyphIndex 200 = Some i2 /\ i1 <= i2.
Proof. apply (glyphIndex_monotone 50 200); lia. Defined.

End Ramp.

(** ** Colour quantisation *)

Section Quantisation.

Import GlyphMapper.

Lemma quantChannel_mod4 (c : Z) : quantChannel c = (c / 64 mod 4) * 64.
Proof.
  unfold quantChannel, Py.uint8_mul.
  change 256 with (4 * 64). now rewrite Z.mul_mod_distr_r by lia.
Qed.

Lemma quantChannel_level (c : Z) : isLevel (quantChannel c).
Proof.
  rewrite quantChannel_mod4. unfold isLevel.
  pose proof (Z.mod_pos_bound (c / 64) 4 ltac:(lia)). lia.
Qed.

Lemma quantChannel_fixed (q : Z) : isLevel q -> quantChannel q = q.
Proof. intros [-> | [-> | [-> | ->]]]; reflexivity. Qed.

Lemma quantChannel_floor (c : Z) :
  0 <= c <= 255 -> quantChannel c = 64 * (c / 64).
Proof.
  intros Hc. rewrite quantChannel_mod4.
  assert (0 <= c / 64 < 4) by (split; [apply Z.div_pos | apply Z.div_lt_upper_bound]; lia).
  rewrite Z.mod_small by lia. lia.
Qed.

(** C6. Quantising twice is quantising once, on the channel triple and on
    the colour string built from it; every channel of the result of an
    8-bit colour is 0, 64, 128 or 192, the largest multiple of 64 below
    the channel. *)
Theorem quantize_idempotent (r g b : Z) :
  0 <= r <= 255 -> 0 <= g <= 255 -> 0 <= b <= 255 ->
  let '(r', g', b') := quantize (r, g, b) in
  quantize (r', g', b') = (r', g', b')
  /\ compressColor r' g' b' = compressColor r g b
  /\ isLevel r' /\ isLevel g' /\ isLevel b'
  /\ r' = 64 * (r / 64) /\ g' = 64 * (g / 64) /\ b' = 64 * (b / 64).
Proof.
  intros Hr Hg Hb. cbn [quantize].
  pose proof (quantChannel_level r) as Lr.
  pose proof (quantChannel_level g) as Lg.
  pose proof (quantChannel_level b) as Lb.
  unfold compressColor. cbn [quantize].
  rewrite !(quantChannel_fixed _ Lr), !(quantChannel_fixed _ Lg),
    !(quantChannel_fixed _ Lb).
  repeat split; auto using quantChannel_floor.
Qed.

Lemma quantize_idempotent_witness :
  let '(r', g', b') := quantize (200, 70, 5) in
  quantize (r', g', b') = (r', g', b')
  /\ compressColor r' g' b' = compressColor 200 70 5
  /\ isLevel r' /\ isLevel g' /\ isLevel b'
  /\ r' = 64 * (200 / 64) /\ g' = 64 * (70 / 64) /\ b' = 64 * (5 / 64).
Proof. apply (quantize_idempotent 200 70 5); lia. Defined.

End Quantisation.

(** ** Rounding in binary64 *)

Section Rounding.

Import Binary64.

Lemma digits2_size (p : positive) : digits2_pos p = Pos.size p.
Proof. induction p; cbn; congruence. Qed.

Lemma digits2_bounds (p : positive) :
  2 ^ (Zpos (digits2_pos p) - 1) <= Zpos p < 2 ^ Zpos (digits2_pos p).
Proof.
  rewrite digits2_size. split.
  - pose proof (Pos.size_le p) as H.
    assert (H' : 2 ^ Zpos (Pos.size p) <= 2 * Zpos p).
    { change (2 * Zpos p) with (Zpos p~0). rewrite <- Pos2Z.inj_pow. exact H. }
    replace (Zpos (Pos.size p)) with (Z.succ (Zpos (Pos.size p) - 1)) in H' by lia.
    rewrite Z.pow_succ_r in H' by lia. lia.
  - rewrite <- Pos2Z.inj_pow. apply Pos2Z.pos_lt_pos, Pos.size_gt.
Qed.

Lemma digits2_unique (p : positive) (k : Z) :
  2 ^ (k - 1) <= Zpos p < 2 ^ k -> Zpos (digits2_pos p) = k.
Proof.
  intros [Hlo Hhi]. pose proof (digits2_bounds p) as [Dlo Dhi].
  set (d := Zpos (digits2_pos p)) in *.
  assert (0 < k).
  { destruct (Z.lt_trichotomy k 0) as [Hk | [-> | Hk]]; [| | exact Hk].
    - rewrite Z.pow_neg_r in Hhi by exact Hk. lia.
    - cbn in Hhi. lia. }
  destruct (Z.lt_trichotomy d k) as [Hlt | [Heq | Hgt]]; [| exact Heq |].
  - assert (2 ^ d <= 2 ^ (k - 1)) by (apply Z.pow_le_mono_r; lia). lia.
  - assert (2 ^ k <= 2 ^ (d - 1)) by (apply Z.pow_le_mono_r; lia). lia.
Qed.

Lemma shr_1_m (mrs : shr_record) :
  0 <= shr_m mrs -> shr_m (shr_1 mrs) = shr_m mrs / 2.
Proof.
  destruct mrs as [m r s]. cbn [shr_m]. intros Hm.
  destruct m as [|[p|p|]|p]; cbn [shr_1 shr_m]; try lia; try reflexivity.
  - apply Z.div_unique with 1; lia.
  - apply Z.div_unique with 0; lia.
Qed.

Lemma iter_shr_m (p : positive) (mrs : shr_record) :
  0 <= shr_m mrs ->
  shr_m (SpecFloat.iter_pos shr_1 p mrs) = shr_m mrs / 2 ^ Zpos p.
Proof.
  revert mrs. induction p as [p IH | p IH |]; intros mrs Hm; cbn [SpecFloat.iter_pos].
  - assert (H1 : 0 <= shr_m (shr_1 mrs)) by (rewrite shr_1_m by exact Hm; apply Z.div_pos; lia).
    assert (H2 : 0 <= shr_m (SpecFloat.iter_pos shr_1 p (shr_1 mrs))).
    { rewrite IH by exact H1. apply Z.div_pos; [exact H1 | apply Z.pow_pos_nonneg; lia]. }
    rewrite IH by exact H2. rewrite IH by exact H1. rewrite shr_1_m by exact Hm.
    rewrite !Z.div_div by (try apply Z.pow_pos_nonneg; try apply Z.mul_pos_pos;
                           try apply Z.pow_pos_nonneg; lia).
    f_equal. replace (Zpos p~1) with (1 + Zpos p + Zpos p) by lia.
    rewrite !Z.pow_add_r by lia. change (2 ^ 1) with 2. ring.
  - assert (H2 : 0 <= shr_m (SpecFloat.iter_pos shr_1 p mrs)).
    { rewrite IH by exact Hm. apply Z.div_pos; [exact Hm | apply Z.pow_pos_nonneg; lia]. }
    rewrite IH by exact H2. rewrite IH by exact Hm.
    rewrite Z.div_div by (try apply Z.pow_pos_nonneg; lia).
    f_equal. replace (Zpos p~0) with (Zpos p + Zpos p) by lia.
    rewrite Z.pow_add_r by lia. reflexivity.
  - now rewrite shr_1_m.
Qed.

(** [shr] by [n >= 0] bits: floor division. *)
Lemma shr_floor (mrs : shr_record) (e n : Z) :
  0 <= shr_m mrs -> 0 <= n ->
  snd (shr mrs e n) = e + n /\ shr_m (fst (shr mrs e n)) = shr_m mrs / 2 ^ n.
Proof.
  intros Hm Hn. destruct n as [|p|p]; cbn [shr fst snd]; [| | lia].
  - split; [lia |]. now rewrite Z.div_1_r.
  - split; [reflexivity |]. now apply iter_shr_m.
Qed.

Lemma round_nearest_even_cases (m : Z) (l : location) :
  round_nearest_even m l = m \/ round_nearest_even m l = m + 1.
Proof.
  destruct l as [|[| |]]; cbn; auto. destruct (Z.even m); auto.
Qed.

Lemma shr_record_of_loc_m (m : Z) (l : location) : shr_m (shr_record_of_loc m l) = m.
Proof. now destruct l as [|[| |]]. Qed.

Lemma Zdigits2_unique (z k : Z) :
  2 ^ (k - 1) <= z < 2 ^ k -> 0 < z -> Zdigits2 z = k.
Proof.
  intros Hb Hz. destruct z as [|p|p]; try lia. now apply digits2_unique.
Qed.

Lemma fexp_normal (x : Z) : -1021 <= x -> fexp prec emax x = x - 53.
Proof. intros Hx. unfold fexp, SpecFloat.emin, prec, emax. lia. Qed.

(** Rounding a mantissa of at least 53 bits, away from overflow and
    underflow: the result is a normal number within two units in the last
    place. *)
Lemma round_aux_normal (s : bool) (M : positive) (E : Z) (l : location) :
  53 <= Zpos (digits2_pos M) -> -1074 <= E ->
  E + Zpos (digits2_pos M) - 52 <= 971 ->
  exists m e,
    binary_round_aux prec emax s (Zpos M) E l = S754_finite s m e
    /\ 2 ^ 52 <= Zpos m < 2 ^ 53
    /\ E + Zpos (digits2_pos M) - 53 <= e <= E + Zpos (digits2_pos M) - 52
    /\ Zpos m * 2 ^ (e - E) <= Zpos M + 2 ^ (e - E)
    /\ Zpos M < (Zpos m + 2) * 2 ^ (e - E).
Proof.
  intros Hd HE Hov. pose proof (digits2_bounds M) as [Mlo Mhi].
  set (d := Zpos (digits2_pos M)) in *.
  unfold binary_round_aux, shr_fexp. cbn [Zdigits2]. fold d.
  rewrite fexp_normal by lia.
  set (n1 := d + E - 53 - E). assert (Hn1 : n1 = d - 53) by (unfold n1; lia).
  destruct (shr_floor (shr_record_of_loc (Zpos M) l) E n1) as [He1 Hm1];
    [rewrite shr_record_of_loc_m; lia | lia |].
  destruct (shr (shr_record_of_loc (Zpos M) l) E n1) as [mrs1 e1].
  cbn [fst snd] in He1, Hm1. rewrite shr_record_of_loc_m in Hm1.
  set (P := 2 ^ n1) in *. assert (HP : 0 < P) by (apply Z.pow_pos_nonneg; lia).
  assert (Hd1 : 2 ^ (d - 1) = 2 ^ 52 * P).
  { unfold P. rewrite <- Z.pow_add_r by lia. f_equal. lia. }
  assert (Hd2 : 2 ^ d = 2 ^ 53 * P).
  { unfold P. rewrite <- Z.pow_add_r by lia. f_equal. lia. }
  set (M1 := shr_m mrs1) in *.
  assert (HM1 : 2 ^ 52 <= M1 < 2 ^ 53).
  { rewrite Hm1. split.
    - apply Z.div_le_lower_bound; lia.
    - apply Z.div_lt_upper_bound; lia. }
  assert (Hfl : M1 * P <= Zpos M < (M1 + 1) * P).
  { rewrite Hm1. pose proof (Z.mul_div_le (Zpos M) P HP).
    pose proof (Z.mul_succ_div_gt (Zpos M) P HP). lia. }
  set (m1 := round_nearest_even M1 (loc_of_shr_record mrs1)).
  assert (Hm1c : m1 = M1 \/ m1 = M1 + 1) by apply round_nearest_even_cases.
  change (2 ^ 52) with 4503599627370496 in *.
  change (2 ^ 53) with 9007199254740992 in *.
  destruct (Z.eq_dec m1 9007199254740992) as [Hcarry | Hnc].
  - (* the mantissa carried into bit 54 *)
    rewrite Hcarry. change (Zdigits2 9007199254740992) with 54.
    rewrite fexp_normal by lia.
    replace (54 + e1 - 53 - e1) with 1 by lia.
    cbn [shr shr_record_of_loc SpecFloat.iter_pos shr_1 shr_m].
    replace (e1 + 1 <=? emax - prec) with true
      by (symmetry; apply Z.leb_le; unfold emax, prec; lia).
    eexists _, _. split; [reflexivity |].
    replace (e1 + 1 - E) with (n1 + 1) by lia.
    rewrite Z.pow_add_r by lia. fold P. change (2 ^ 1) with 2.
    repeat split; try lia; nia.
  - assert (Hr : 4503599627370496 <= m1 < 9007199254740992) by lia.
    assert (Hdig : Zdigits2 m1 = 53) by (apply Zdigits2_unique; cbn; lia).
    rewrite Hdig, fexp_normal by lia.
    replace (53 + e1 - 53 - e1) with 0 by lia.
    cbn [shr shr_record_of_loc shr_m].
    destruct m1 as [|m|m] eqn:Em; try lia.
    replace (e1 <=? emax - prec) with true
      by (symmetry; apply Z.leb_le; unfold emax, prec; lia).
    eexists _, _. split; [reflexivity |].
    replace (e1 - E) with n1 by lia. fold P.
    repeat split; try lia; nia.
Qed.

Lemma round_aux_exact (s : bool) (M : positive) (E : Z) :
  Zpos (digits2_pos M) = 53 -> -1074 <= E <= 971 ->
  binary_round_aux prec emax s (Zpos M) E loc_Exact = S754_finite s M E.
Proof.
  intros Hd HE. unfold binary_round_aux, shr_fexp. cbn [Zdigits2].
  rewrite Hd, fexp_normal by lia.
  replace (53 + E - 53 - E) with 0 by lia.
  cbn [shr shr_record_of_loc shr_m loc_of_shr_record round_nearest_even Zdigits2].
  rewrite Hd, fexp_normal by lia.
  replace (53 + E - 53 - E) with 0 by lia.
  cbn [shr shr_record_of_loc shr_m].
  replace (E <=? emax - prec) with true
    by (symmetry; apply Z.leb_le; unfold emax, prec; lia).
  reflexivity.
Qed.

Lemma iter_xO_pow (p k : positive) :
  Zpos (Pos.iter xO p k) = Zpos p * 2 ^ Zpos k.
Proof.
  induction k as [|k IH] using Pos.peano_ind.
  - cbn [Pos.iter]. rewrite Pos2Z.inj_xO. change (2 ^ 1) with 2. ring.
  - rewrite Pos.iter_succ, Pos2Z.inj_xO, IH, Pos2Z.inj_succ, Z.pow_succ_r by lia. ring.
Qed.

(** A positive integer below 2^53 is a binary64 number: the conversion is
    exact and yields a normal number. *)
Lemma normalize_exact (p : positive) :
  Zpos p < 2 ^ 53 ->
  exists m e,
    binary_normalize prec emax (Zpos p) 0 false = S754_finite false m e
    /\ 2 ^ 52 <= Zpos m < 2 ^ 53 /\ -52 <= e <= 0
    /\ Zpos m = Zpos p * 2 ^ (- e).
Proof.
  intros Hp. pose proof (digits2_bounds p) as [Plo Phi].
  set (d := Zpos (digits2_pos p)) in *.
  assert (Hd : 1 <= d <= 53).
  { split; [unfold d; lia |].
    destruct (Z.le_gt_cases d 53) as [H | H]; [exact H |].
    assert (2 ^ 53 <= 2 ^ (d - 1)) by (apply Z.pow_le_mono_r; lia). lia. }
  cbn [binary_normalize]. unfold binary_round, shl_align. fold d.
  rewrite Z.add_0_r, fexp_normal, Z.sub_0_r by lia.
  destruct (d - 53) as [|k|k] eqn:Ek; try lia.
  - rewrite round_aux_exact by (fold d; lia).
    exists p, 0. replace d with 53 in * by lia.
    repeat split; lia.
  - assert (Hk : Zpos k = 53 - d) by lia.
    assert (Hv : Zpos (Pos.iter xO p k) = Zpos p * 2 ^ Zpos k) by apply iter_xO_pow.
    assert (Hb : 2 ^ 52 <= Zpos (Pos.iter xO p k) < 2 ^ 53).
    { rewrite Hv.
      assert (E1 : 2 ^ 52 = 2 ^ (d - 1) * 2 ^ Zpos k)
        by (rewrite <- Z.pow_add_r by lia; f_equal; lia).
      assert (E2 : 2 ^ 53 = 2 ^ d * 2 ^ Zpos k)
        by (rewrite <- Z.pow_add_r by lia; f_equal; lia).
      assert (0 < 2 ^ Zpos k) by (apply Z.pow_pos_nonneg; lia).
      rewrite E1, E2. split; [apply Z.mul_le_mono_nonneg_r | apply Z.mul_lt_mono_pos_r]; lia. }
    rewrite round_aux_exact; [| apply digits2_unique; exact Hb | lia].
    exists (Pos.iter xO p k), (Zneg k). repeat split; try lia.
    rewrite Hv. reflexivity.
Qed.

Lemma bpow_pos (e : Z) : (0 < bpow e)%R.
Proof. apply powerRZ_lt. lra. Qed.

Lemma bpow_add (a b : Z) : (bpow (a + b) = bpow a * bpow b)%R.
Proof. apply powerRZ_add. lra. Qed.

Lemma bpow_IZR (k : Z) : 0 <= k -> bpow k = IZR (2 ^ k).
Proof.
  intros Hk. unfold bpow. rewrite <- (Z2Nat.id k Hk) at 1 2.
  rewrite <- pow_powerRZ. now rewrite pow_IZR.
Qed.

Lemma round_aux_R (s : bool) (M : positive) (E : Z) (l : location) (X : R) :
  53 <= Zpos (digits2_pos M) -> -1074 <= E ->
  E + Zpos (digits2_pos M) - 52 <= 971 ->
  (IZR (Zpos M) * bpow E <= X < (IZR (Zpos M) + 1) * bpow E)%R ->
  exists m e,
    binary_round_aux prec emax s (Zpos M) E l = S754_finite s m e
    /\ 2 ^ 52 <= Zpos m < 2 ^ 53
    /\ E + Zpos (digits2_pos M) - 53 <= e <= E + Zpos (digits2_pos M) - 52
    /\ ((1 - u) * (IZR (Zpos m) * bpow e) <= X
        <= (1 + u) * (IZR (Zpos m) * bpow e))%R.
Proof.
  intros Hd HE Hov [HX1 HX2].
  destruct (round_aux_normal s M E l Hd HE Hov) as (m & e & Hr & Hm & He & H1 & H2).
  exists m, e. split; [exact Hr |]. split; [exact Hm |]. split; [exact He |].
  assert (HK : 0 <= e - E) by lia.
  replace e with ((e - E) + E) at 1 2 by lia.
  rewrite bpow_add, (bpow_IZR _ HK).
  pose proof (bpow_pos E) as Hb.
  assert (HP : (1 <= IZR (2 ^ (e - E)))%R).
  { apply IZR_le. pose proof (Z.pow_pos_nonneg 2 (e - E)). lia. }
  apply IZR_le in H1. rewrite plus_IZR, mult_IZR in H1.
  assert (H2' : Zpos M + 1 <= (Zpos m + 2) * 2 ^ (e - E)) by lia.
  apply IZR_le in H2'. rewrite plus_IZR, mult_IZR, plus_IZR in H2'.
  assert (Hm52 : (4503599627370496 <= IZR (Zpos m))%R) by (apply IZR_le; lia).
  set (mm := IZR (Zpos m)) in *. set (MM := IZR (Zpos M)) in *.
  set (P := IZR (2 ^ (e - E))) in *. set (b := bpow E) in *.
  assert (A1 : (mm * P * b <= (MM + P) * b)%R)
    by (apply Rmult_le_compat_r; lra).
  assert (A2 : ((MM + 1) * b <= (mm + 2) * P * b)%R)
    by (apply Rmult_le_compat_r; lra).
  assert (A3 : (4503599627370496 * (P * b) <= mm * (P * b))%R).
  { apply Rmult_le_compat_r; [| exact Hm52].
    apply Rlt_le, Rmult_lt_0_compat; lra. }
  unfold u. split; lra.
Qed.

Lemma digits2_range (p : positive) (a b : Z) :
  0 <= a -> 2 ^ a <= Zpos p < 2 ^ b -> a + 1 <= Zpos (digits2_pos p) <= b.
Proof.
  intros Ha [Hlo Hhi]. pose proof (digits2_bounds p) as [Dlo Dhi].
  set (d := Zpos (digits2_pos p)) in *. split.
  - destruct (Z.le_gt_cases (a + 1) d) as [H | H]; [exact H |].
    assert (2 ^ d <= 2 ^ a) by (apply Z.pow_le_mono_r; lia). lia.
  - destruct (Z.le_gt_cases d b) as [H | H]; [exact H |].
    assert (0 <= b).
    { destruct (Z.le_gt_cases 0 b); [assumption |].
      rewrite Z.pow_neg_r in Hhi by lia. lia. }
    assert (2 ^ b <= 2 ^ (d - 1)) by (apply Z.pow_le_mono_r; lia). lia.
Qed.

(** The product of two normal numbers, away from overflow and underflow. *)
Lemma SFmul_R (mx my : positive) (ex ey : Z) :
  2 ^ 52 <= Zpos mx < 2 ^ 53 -> 2 ^ 52 <= Zpos my < 2 ^ 53 ->
  -1000 <= ex + ey <= 800 ->
  exists m e,
    SFmul prec emax (S754_finite false mx ex) (S754_finite false my ey)
    = S754_finite false m e
    /\ 2 ^ 52 <= Zpos m < 2 ^ 53
    /\ ex + ey + 52 <= e <= ex + ey + 54
    /\ ((1 - u) * (IZR (Zpos m) * bpow e)
        <= (IZR (Zpos mx) * bpow ex) * (IZR (Zpos my) * bpow ey)
        <= (1 + u) * (IZR (Zpos m) * bpow e))%R.
Proof.
  intros Hx Hy He. cbn [SFmul xorb].
  assert (HM : 2 ^ 104 <= Zpos (mx * my) < 2 ^ 106).
  { rewrite Pos2Z.inj_mul.
    change (2 ^ 104) with (2 ^ 52 * 2 ^ 52). change (2 ^ 106) with (2 ^ 53 * 2 ^ 53).
    split; [apply Z.mul_le_mono_nonneg | apply Z.mul_lt_mono_nonneg]; lia. }
  pose proof (digits2_range (mx * my) 104 106 ltac:(lia) HM) as Hd.
  destruct (round_aux_R false (mx * my) (ex + ey) loc_Exact
              ((IZR (Zpos mx) * bpow ex) * (IZR (Zpos my) * bpow ey)))
    as (m & e & Hr & Hm & Hee & Hv); try lia.
  - rewrite Pos2Z.inj_mul, mult_IZR, bpow_add.
    pose proof (bpow_pos ex). pose proof (bpow_pos ey).
    assert (0 < bpow ex * bpow ey)%R by (apply Rmult_lt_0_compat; lra).
    split; [right; ring | ]. lra.
  - exists m, e. repeat split; try lia; try exact Hr; apply Hv.
Qed.

(** The quotient of two normal numbers, away from overflow and underflow. *)
Lemma SFdiv_R (mx my : positive) (ex ey : Z) :
  2 ^ 52 <= Zpos mx < 2 ^ 53 -> 2 ^ 52 <= Zpos my < 2 ^ 53 ->
  -900 <= ex - ey <= 900 ->
  exists m e,
    SFdiv prec emax (S754_finite false mx ex) (S754_finite false my ey)
    = S754_finite false m e
    /\ 2 ^ 52 <= Zpos m < 2 ^ 53
    /\ ex - ey - 53 <= e <= ex - ey - 51
    /\ ((1 - u) * (IZR (Zpos m) * bpow e)
        <= (IZR (Zpos mx) * bpow ex) / (IZR (Zpos my) * bpow ey)
        <= (1 + u) * (IZR (Zpos m) * bpow e))%R.
Proof.
  intros Hx Hy He. cbn [SFdiv xorb]. unfold SFdiv_core_binary. cbn [Zdigits2].
  rewrite (digits2_unique mx 53), (digits2_unique my 53) by (cbn; lia).
  replace (53 + ex - (53 + ey)) with (ex - ey) by lia.
  rewrite fexp_normal by lia.
  rewrite Z.min_l by lia.
  replace (ex - ey - (ex - ey - 53)) with 53 by lia.
  rewrite Z.shiftl_mul_pow2 by lia.
  set (a := Zpos mx * 2 ^ 53).
  pose proof (Z_div_mod_eq_full a (Zpos my)) as Hdm.
  pose proof (Z.mod_pos_bound a (Zpos my) ltac:(lia)) as Hmod.
  assert (Hq : Z.div_eucl a (Zpos my) = (a / Zpos my, a mod Zpos my)).
  { unfold Z.div, Z.modulo. now destruct (Z.div_eucl a (Zpos my)). }
  rewrite Hq.
  set (q := a / Zpos my) in *. set (r := a mod Zpos my) in *.
  change (2 ^ 52) with 4503599627370496 in *.
  change (2 ^ 53) with 9007199254740992 in *.
  assert (Hqb : 2 ^ 52 <= q < 2 ^ 54).
  { change (2 ^ 52) with 4503599627370496. change (2 ^ 54) with 18014398509481984.
    unfold a in Hdm. split; nia. }
  destruct q as [|pq|pq] eqn:Eq; try lia.
  pose proof (digits2_range pq 52 54 ltac:(lia) Hqb) as Hd.
  destruct (round_aux_R false pq (ex - ey - 53) (new_location (Zpos my) r)
              ((IZR (Zpos mx) * bpow ex) / (IZR (Zpos my) * bpow ey)))
    as (m & e & Hr & Hm & Hee & Hv); try lia.
  - (* the integer quotient brackets the real one *)
    pose proof (bpow_pos ex) as Bx. pose proof (bpow_pos ey) as By.
    pose proof (bpow_pos (ex - ey - 53)) as Bq.
    assert (Hmy : (0 < IZR (Zpos my))%R) by (apply IZR_lt; lia).
    assert (Hbx : bpow ex = (IZR 9007199254740992 * bpow (ex - ey - 53) * bpow ey)%R).
    { change (IZR 9007199254740992) with (IZR (2 ^ 53)).
      rewrite <- (bpow_IZR 53) by lia. rewrite <- !bpow_add. f_equal. lia. }
    assert (Ha1 : (IZR (Zpos pq) * IZR (Zpos my) <= IZR (Zpos mx) * IZR 9007199254740992)%R).
    { rewrite <- !mult_IZR. apply IZR_le. unfold a in Hdm. lia. }
    assert (Ha2 : (IZR (Zpos mx) * IZR 9007199254740992 < (IZR (Zpos pq) + 1) * IZR (Zpos my))%R).
    { rewrite <- (plus_IZR _ 1), <- !mult_IZR. apply IZR_lt. unfold a in Hdm. lia. }
    set (X := ((IZR (Zpos mx) * bpow ex) / (IZR (Zpos my) * bpow ey))%R).
    assert (HX : (X * IZR (Zpos my) = IZR (Zpos mx) * IZR 9007199254740992 * bpow (ex - ey - 53))%R).
    { unfold X. rewrite Hbx. field. split; lra. }
    set (mxR := IZR (Zpos mx)) in *. set (myR := IZR (Zpos my)) in *.
    set (qR := IZR (Zpos pq)) in *. set (b := bpow (ex - ey - 53)) in *.
    assert (B1 : (qR * myR * b <= mxR * IZR 9007199254740992 * b)%R)
      by (apply Rmult_le_compat_r; lra).
    assert (B2 : (mxR * IZR 9007199254740992 * b < (qR + 1) * myR * b)%R)
      by (apply Rmult_lt_compat_r; lra).
    split.
    + apply (Rmult_le_reg_r myR); lra.
    + apply (Rmult_lt_reg_r myR); lra.
  - exists m, e. repeat split; try lia; try exact Hr; apply Hv.
Qed.

(** [int] of a positive finite float is the floor of its value. *)
Lemma trunc_floor (m : positive) (e : Z) :
  let a := match e with
           | Zneg p => Z.shiftr (Zpos m) (Zpos p)
           | _ => Z.shiftl (Zpos m) e
           end in
  (IZR a <= IZR (Zpos m) * bpow e < IZR a + 1)%R.
Proof.
  destruct e as [|p|p]; cbv zeta.
  - rewrite Z.shiftl_0_r. change (bpow 0) with 1%R. lra.
  - rewrite Z.shiftl_mul_pow2, mult_IZR, <- bpow_IZR by lia. lra.
  - rewrite Z.shiftr_div_pow2 by lia.
    assert (HP : 0 < 2 ^ Zpos p) by (apply Z.pow_pos_nonneg; lia).
    pose proof (Z.mul_div_le (Zpos m) _ HP) as H1.
    pose proof (Z.mul_succ_div_gt (Zpos m) _ HP) as H2.
    set (a := Zpos m / 2 ^ Zpos p) in *.
    assert (H2' : Zpos m + 1 <= 2 ^ Zpos p * (a + 1)) by lia.
    apply IZR_le in H1, H2'. rewrite mult_IZR in H1.
    rewrite plus_IZR, mult_IZR, plus_IZR in H2'.
    rewrite <- bpow_IZR in H1, H2' by lia.
    pose proof (bpow_pos (Zneg p)) as Hb.
    assert (Hinv : (bpow (Zpos p) * bpow (Zneg p) = 1)%R).
    { rewrite <- bpow_add. replace (Zpos p + Zneg p) with 0 by lia. reflexivity. }
    set (B := bpow (Zpos p)) in *. set (b := bpow (Zneg p)) in *.
    set (mm := IZR (Zpos m)) in *. set (aa := IZR a) in *.
    assert (C1 : (B * aa * b <= mm * b)%R) by (apply Rmult_le_compat_r; lra).
    assert (C2 : ((mm + 1) * b <= B * (aa + 1) * b)%R) by (apply Rmult_le_compat_r; lra).
    assert (C3 : (B * aa * b = aa)%R).
    { transitivity (aa * (B * b))%R; [ring | rewrite Hinv; ring]. }
    assert (C4 : (B * (aa + 1) * b = aa + 1)%R).
    { transitivity ((aa + 1) * (B * b))%R; [ring | rewrite Hinv; ring]. }
    lra.
Qed.

Lemma float_of_int_zero : Prim2SF (Py.float_of_int 0) = S754_zero false.
Proof. reflexivity. Qed.

(** A positive int below 2^53 converts exactly. *)
Lemma float_of_int_exact (n : Z) :
  0 < n < 2 ^ 53 ->
  exists m e,
    Prim2SF (Py.float_of_int n) = S754_finite false m e
    /\ 2 ^ 52 <= Zpos m < 2 ^ 53 /\ -52 <= e <= 0
    /\ (IZR (Zpos m) * bpow e = IZR n)%R.
Proof.
  intros Hn. unfold Py.float_of_int.
  replace (n <? 0) with false by (symmetry; apply Z.ltb_ge; lia).
  rewrite of_uint63_spec, of_Z_spec.
  rewrite Z.mod_small by (change wB with (2 ^ 63); change (2 ^ 53) with 9007199254740992 in Hn;
                          change (2 ^ 63) with 9223372036854775808; lia).
  destruct n as [|p|p]; try lia.
  destruct (normalize_exact p) as (m & e & Hr & Hm & He & Hv); [lia |].
  exists m, e. repeat split; try lia; try exact Hr.
  rewrite Hv, mult_IZR, <- bpow_IZR by lia.
  rewrite Rmult_assoc, <- bpow_add. replace (- e + e) with 0 by lia.
  unfold bpow. cbn [powerRZ]. ring.
Qed.

Lemma bpow_neg_l (p : positive) : (bpow (Zneg p) * IZR (2 ^ Zpos p) = 1)%R.
Proof.
  rewrite <- bpow_IZR, <- bpow_add by lia.
  replace (Zneg p + Zpos p) with 0 by lia. reflexivity.
Qed.

Lemma width150_SF :
  Prim2SF (Py.float_of_int 150) = S754_finite false 5277655813324800 (-45).
Proof. vm_compute. reflexivity. Qed.

Lemma ratio_055_SF :
  Prim2SF Resize.ratio_055 = S754_finite false 4953959590107546 (-53).
Proof. vm_compute. reflexivity. Qed.

Lemma width150_value : (IZR 5277655813324800 * bpow (-45) = 150)%R.
Proof.
  pose proof (bpow_neg_l 45) as H.
  change (2 ^ 45) with 35184372088832 in H. lra.
Qed.

Lemma ratio_055_value :
  (IZR 4953959590107546 * bpow (-53) = 4953959590107546 / 9007199254740992)%R.
Proof.
  pose proof (bpow_neg_l 53) as H.
  change (2 ^ 53) with 9007199254740992 in H. lra.
Qed.

(** The float [150 * (h / w) * 0.55] is finite and within 2^-48 of 82.5 h/w,
    relatively. *)
Lemma resize_product (h w : Z) :
  0 < h < 2 ^ 31 -> 0 < w < 2 ^ 31 ->
  exists m e,
    Prim2SF (PrimFloat.mul
               (PrimFloat.mul (Py.float_of_int 150)
                  (PrimFloat.div (Py.float_of_int h) (Py.float_of_int w)))
               Resize.ratio_055)
    = S754_finite false m e
    /\ (165 / 2 * (1 - / 281474976710656) * (IZR h / IZR w)
        <= IZR (Zpos m) * bpow e
        <= 165 / 2 * (1 + / 281474976710656) * (IZR h / IZR w))%R.
Proof.
  intros Hh Hw.
  change (2 ^ 31) with 2147483648 in *.
  destruct (float_of_int_exact h) as (mh & eh & Hfh & Hmh & Heh & Hvh);
    [change (2 ^ 53) with 9007199254740992; lia |].
  destruct (float_of_int_exact w) as (mw & ew & Hfw & Hmw & Hew & Hvw);
    [change (2 ^ 53) with 9007199254740992; lia |].
  rewrite !FloatAxioms.mul_spec, FloatAxioms.div_spec. unfold SF64mul, SF64div.
  rewrite Hfh, Hfw, width150_SF, ratio_055_SF.
  assert (Hdq : -900 <= eh - ew <= 900) by lia.
  destruct (SFdiv_R mh mw eh ew Hmh Hmw Hdq) as (mq & eq & Hq & Hmq & Heq & Hvq).
  rewrite Hq.
  assert (H150 : 2 ^ 52 <= 5277655813324800 < 2 ^ 53) by (cbv; split; congruence).
  assert (H055 : 2 ^ 52 <= 4953959590107546 < 2 ^ 53) by (cbv; split; congruence).
  assert (Hdp : -1000 <= -45 + eq <= 800) by lia.
  destruct (SFmul_R 5277655813324800 mq (-45) eq H150 Hmq Hdp)
    as (mp & ep & Hp & Hmp & Hep & Hvp).
  rewrite Hp.
  assert (Hdr : -1000 <= ep + -53 <= 800) by lia.
  destruct (SFmul_R mp 4953959590107546 ep (-53) Hmp H055 Hdr)
    as (mr & er & Hr & Hmr & Her & Hvr).
  rewrite Hr. exists mr, er. split; [reflexivity |].
  rewrite Hvh, Hvw in Hvq. rewrite width150_value in Hvp.
  rewrite ratio_055_value in Hvr.
  set (x := (IZR h / IZR w)%R) in *.
  set (vq := (IZR (Zpos mq) * bpow eq)%R) in *.
  set (vp := (IZR (Zpos mp) * bpow ep)%R) in *.
  set (vr := (IZR (Zpos mr) * bpow er)%R) in *.
  unfold u in *. split; lra.
Qed.

(** The height [resizeFrame] computes for the width 150, against the exact
    quotient 165 h / (2 w) = 150 * (h / w) * 0.55. *)
Lemma resizeFrame_height (h w : Z) :
  0 <= h < 2 ^ 31 -> 0 < w < 2 ^ 31 ->
  exists n,
    Resize.resizeFrame h w 150 = Some (150, n)
    /\ (n = 165 * h / (2 * w)
        \/ (n = 165 * h / (2 * w) - 1 /\ (165 * h) mod (2 * w) = 0)).
Proof.
  intros Hh Hw. unfold Resize.resizeFrame, Py.truediv.
  replace (w =? 0) with false by (symmetry; apply Z.eqb_neq; lia).
  destruct (Z.eq_dec h 0) as [-> | Hh0].
  - (* an empty frame *)
    exists 0. split; [| left; now rewrite Z.mul_0_r, Z.div_0_l by lia].
    unfold Py.int_of_float.
    destruct (float_of_int_exact w) as (mw & ew & Hfw & _);
      [change (2 ^ 53) with 9007199254740992; change (2 ^ 31) with 2147483648 in Hw; lia |].
    rewrite !FloatAxioms.mul_spec, FloatAxioms.div_spec. unfold SF64mul, SF64div.
    rewrite float_of_int_zero, Hfw, width150_SF, ratio_055_SF. reflexivity.
  - destruct (resize_product h w ltac:(lia) Hw) as (m & e & Hprod & Hlo & Hhi).
    unfold Py.int_of_float. rewrite Hprod.
    pose proof (trunc_floor m e) as Hfl. cbv zeta in Hfl.
    set (a := match e with
              | Zneg p => Z.shiftr (Zpos m) (Zpos p)
              | _ => Z.shiftl (Zpos m) e
              end) in *.
    exists a. split; [reflexivity |].
    set (F := 165 * h / (2 * w)).
    assert (HD : 0 < 2 * w) by lia.
    pose proof (Z.mul_div_le (165 * h) (2 * w) HD) as HF1.
    pose proof (Z.mul_succ_div_gt (165 * h) (2 * w) HD) as HF2.
    fold F in HF1, HF2.
    change (2 ^ 31) with 2147483648 in *.
    (* the same facts over the reals *)
    assert (HwR : (1 <= IZR w)%R) by (apply IZR_le; lia).
    assert (HhR : (1 <= IZR h < 2147483648)%R) by (split; [apply IZR_le | apply IZR_lt]; lia).
    assert (G1 : (2 * IZR w * IZR F <= 165 * IZR h)%R).
    { rewrite <- !mult_IZR. apply IZR_le. lia. }
    assert (G2 : (165 * IZR h + 1 <= 2 * IZR w * IZR F + 2 * IZR w)%R).
    { rewrite <- !mult_IZR, <- !plus_IZR. apply IZR_le. lia. }
    set (vr := (IZR (Zpos m) * bpow e)%R) in *.
    assert (Hx : (IZR h / IZR w * IZR w = IZR h)%R) by (field; lra).
    set (x := (IZR h / IZR w)%R) in *.
    assert (V1 : (165 / 2 * (1 - / 281474976710656) * x * IZR w <= vr * IZR w)%R)
      by (apply Rmult_le_compat_r; lra).
    assert (V2 : (vr * IZR w <= 165 / 2 * (1 + / 281474976710656) * x * IZR w)%R)
      by (apply Rmult_le_compat_r; lra).
    assert (V3 : (IZR a * IZR w <= vr * IZR w)%R)
      by (apply Rmult_le_compat_r; lra).
    assert (V4 : (vr * IZR w <= (IZR a + 1) * IZR w)%R)
      by (apply Rmult_le_compat_r; lra).
    assert (Hxw : (x * IZR w = IZR h)%R) by exact Hx.
    assert (V1' : (165 / 2 * (1 - / 281474976710656) * IZR h <= vr * IZR w)%R).
    { rewrite <- Hxw. lra. }
    assert (V2' : (vr * IZR w <= 165 / 2 * (1 + / 281474976710656) * IZR h)%R).
    { rewrite <- Hxw. lra. }
    assert (Hub : a <= F).
    { destruct (Z_le_gt_dec a F) as [H | H]; [exact H | exfalso].
      assert (Ha : (IZR F + 1 <= IZR a)%R)
        by (rewrite <- plus_IZR; apply IZR_le; lia).
      assert (Ha' : ((IZR F + 1) * IZR w <= IZR a * IZR w)%R)
        by (apply Rmult_le_compat_r; lra).
      lra. }
    assert (Hlb : F - 1 <= a).
    { destruct (Z_le_gt_dec (F - 1) a) as [H | H]; [exact H | exfalso].
      assert (Ha : (IZR a + 1 <= IZR F - 1)%R)
        by (rewrite <- plus_IZR, <- minus_IZR; apply IZR_le; lia).
      assert (Ha' : ((IZR a + 1) * IZR w <= (IZR F - 1) * IZR w)%R)
        by (apply Rmult_le_compat_r; lra).
      lra. }
    destruct (Z.eq_dec a F) as [Heq | Hne]; [left; exact Heq | right].
    assert (Ha : a = F - 1) by lia. split; [exact Ha |].
    assert (Hex : (IZR (165 * h - 2 * w * F) < 1)%R).
    { rewrite minus_IZR, !mult_IZR.
      assert (Ha1 : (IZR a + 1 = IZR F)%R)
        by (rewrite <- plus_IZR; f_equal; lia).
      rewrite Ha1 in V4. lra. }
    apply lt_IZR in Hex.
    rewrite Z.mod_eq by lia. fold F. lia.
Qed.

End Rounding.

(** ** The resize step *)

Section ResizeStep.

Import Binary64 Resize.




(** A frame so flat that the computed height is 0 is not resized at all:
    a 640x1 frame gives the size (150, 0), which [cv2.resize] refuses. *)
Example flat_frame_not_resized :
  resizeFrame 1 640 defaultWidth = Some (150, 0)
  /\ resizeFrameShape 1 640 defaultWidth = None.
Proof. split; vm_compute; reflexivity. Qed.

(** C5, as amended. For frames whose dimensions fit OpenCV's 32-bit sizes
    the aspect ratio is kept within one row: the bound 1/outWidth is met,
    and met strictly whenever 165 h is not a multiple of 2 w. *)
Theorem resize_aspect_ratio (h w : Z) :
  0 <= h < 2 ^ 31 -> 0 < w < 2 ^ 31 ->
  exists outWidth outHeight,
    resizeFrame h w defaultWidth = Some (outWidth, outHeight)
    /\ (Rabs (IZR outHeight / IZR outWidth - 55 / 100 * (IZR h / IZR w))
        <= 1 / IZR outWidth)%R
    /\ ((165 * h) mod (2 * w) <> 0 ->
        (Rabs (IZR outHeight / IZR outWidth - 55 / 100 * (IZR h / IZR w))
         < 1 / IZR outWidth)%R).
Proof.
  intros Hh Hw. destruct (resizeFrame_height h w Hh Hw) as (n & Hn & Hcases).
  exists 150, n. split; [exact Hn |].
  set (F := 165 * h / (2 * w)) in *.
  assert (HD : 0 < 2 * w) by lia.
  pose proof (Z.mul_div_le (165 * h) (2 * w) HD) as HF1.
  pose proof (Z.mul_succ_div_gt (165 * h) (2 * w) HD) as HF2.
  pose proof (Z.mod_eq (165 * h) (2 * w) ltac:(lia)) as Hmod.
  fold F in HF1, HF2, Hmod.
  assert (HwR : (1 <= IZR w)%R) by (apply IZR_le; lia).
  assert (G1 : (2 * IZR w * IZR F <= 165 * IZR h)%R).
  { rewrite <- !mult_IZR. apply IZR_le. lia. }
  assert (G2 : (165 * IZR h + 1 <= 2 * IZR w * IZR F + 2 * IZR w)%R).
  { rewrite <- !mult_IZR, <- !plus_IZR. apply IZR_le. lia. }
  assert (Hx : (IZR h / IZR w * IZR w = IZR h)%R) by (field; lra).
  set (x := (IZR h / IZR w)%R) in *.
  assert (Hd : ((IZR n / 150 - 55 / 100 * x) * (150 * IZR w)
                = IZR n * IZR w - 165 / 2 * IZR h)%R).
  { rewrite <- Hx. field. }
  set (D := (IZR n / 150 - 55 / 100 * x)%R) in *.
  assert (Hscale : forall a b : R, (a * (150 * IZR w) < b * (150 * IZR w) -> a < b)%R).
  { intros a b Hab. apply (Rmult_lt_reg_r (150 * IZR w)); lra. }
  assert (Hscale' : forall a b : R, (a * (150 * IZR w) <= b * (150 * IZR w) -> a <= b)%R).
  { intros a b Hab. apply (Rmult_le_reg_r (150 * IZR w)); lra. }
  destruct Hcases as [-> | [-> Hexact]].
  - (* the exact integer part: strictly within one row *)
    assert (Hlt : (Rabs D < 1 / 150)%R).
    { apply Rabs_def1; apply Hscale; lra. }
    split; [lra | intros _; exact Hlt].
  - (* one less than an integer value: exactly one row off *)
    split; [| intros Hne; contradiction].
    assert (HnF : (IZR (F - 1) = IZR F - 1)%R) by apply minus_IZR.
    assert (Heq : (165 * IZR h = 2 * IZR w * IZR F)%R).
    { rewrite <- !mult_IZR. f_equal. lia. }
    apply Rabs_le. rewrite HnF in Hd. split; apply Hscale'; lra.
Qed.

Lemma resize_aspect_ratio_witness :
  exists outWidth outHeight,
    resizeFrame 480 640 defaultWidth = Some (outWidth, outHeight)
    /\ (Rabs (IZR outHeight / IZR outWidth - 55 / 100 * (IZR 480 / IZR 640))
        <= 1 / IZR outWidth)%R
    /\ ((165 * 480) mod (2 * 640) <> 0 ->
        (Rabs (IZR outHeight / IZR outWidth - 55 / 100 * (IZR 480 / IZR 640))
         < 1 / IZR outWidth)%R).
Proof. apply (resize_aspect_ratio 480 640); simpl; lia. Defined.

(** C5, as stated, fails on a frame 15 wide and 146 high: the product
    evaluates to 802.9999999999999, the code asks for 802 rows where the
    exact value is 803, and the two ratios differ by exactly 1/150. *)
Lemma thin_frame_ratio :
  resizeFrame 146 15 defaultWidth = Some (150, 802)
  /\ ~ (Rabs (IZR 802 / IZR 150 - 55 / 100 * (IZR 146 / IZR 15)) < 1 / IZR 150)%R.
Proof.
  split; [vm_compute; reflexivity |].
  replace (IZR 802 / IZR 150 - 55 / 100 * (IZR 146 / IZR 15))%R
    with (- (1 / 150))%R by field.
  rewrite Rabs_Ropp, Rabs_pos_eq by lra. lra.
Qed.

End ResizeStep.

(** ** The diff renderer *)

Section DiffRenderer.

Import GlyphMapper Renderer.

Variables (f : Frame) (marginX marginY : Z).

Lemma mapCell_total (x y : nat) : exists oc, mapCell f x y = Some oc.
Proof.
  unfold mapCell. destruct (gray f y x <? threshold); [eauto |].
  destruct (processed f y x) as [[b g] r].
  destruct (glyph_total (gray f y x)) as [c ->]. eauto.
Qed.

Lemma visitCell_step (x y : nat) (r : State * list Call) :
  visitCell f marginX marginY y x r = Some (step f marginX marginY r (x, y)).
Proof.
  unfold visitCell, step, cellOf. cbn [fst snd].
  destruct (mapCell_total x y) as [[c|] ->]; reflexivity.
Qed.

Lemma row_drawAll (y : nat) (xs : list nat) (r : State * list Call) :
  forEach (visitCell f marginX marginY y) xs r
  = Some (drawAll f marginX marginY (map (fun x => (x, y)) xs) r).
Proof.
  revert r. induction xs as [|x xs IH]; intros r; [reflexivity |].
  cbn [forEach map]. rewrite visitCell_step. apply IH.
Qed.

Lemma rows_drawAll (ys : list nat) (r : State * list Call) :
  forEach (fun y => forEach (visitCell f marginX marginY y) (seq 0 (cols f))) ys r
  = Some (drawAll f marginX marginY
            (flat_map (fun y => map (fun x => (x, y)) (seq 0 (cols f))) ys) r).
Proof.
  revert r. induction ys as [|y ys IH]; intros r; [reflexivity |].
  cbn [forEach flat_map]. rewrite row_drawAll, IH.
  unfold drawAll. now rewrite fold_left_app.
Qed.

(** The two loops never raise, and are a run of cell visits. *)
Lemma renderLoop_drawAll (r : State * list Call) :
  renderLoop f marginX marginY r = Some (drawAll f marginX marginY (positions f) r).
Proof. apply rows_drawAll. Qed.

Lemma positions_spec (p : Pos) :
  p ∈ positions f <-> (fst p < cols f)%nat /\ (snd p < rows f)%nat.
Proof.
  unfold positions. rewrite list_elem_of_In, in_flat_map. split.
  - intros (y & Hy & Hp). apply in_map_iff in Hp as (x & <- & Hx).
    apply in_seq in Hy, Hx. cbn. lia.
  - intros [Hx Hy]. exists (snd p). split; [apply in_seq; lia |].
    apply in_map_iff. exists (fst p). split; [now destruct p |].
    apply in_seq. lia.
Qed.

Lemma positions_NoDup : NoDup (positions f).
Proof.
  unfold positions. generalize (seq_NoDup (cols f) 0). 
  generalize (seq_NoDup (rows f) 0).
  generalize (seq 0 (cols f)) as xs. generalize (seq 0 (rows f)) as ys.
  intros ys xs Hys Hxs. apply NoDup_ListNoDup.
  induction ys as [|y ys IH]; cbn [flat_map]; [constructor |].
  apply NoDup_ListNoDup. apply NoDup_app. inversion Hys; subst.
  split; [| split].
  - apply NoDup_fmap_2; [| now apply NoDup_ListNoDup]. intros a b; congruence.
  - intros q Hq Hq'. apply list_elem_of_fmap in Hq as (x & -> & _).
    apply list_elem_of_In, in_flat_map in Hq' as (y' & Hy' & Hq').
    apply in_map_iff in Hq' as (x' & [= -> ->] & _). contradiction.
  - apply NoDup_ListNoDup. auto.
Qed.

(** *** One cell visit *)

Lemma drawCell_log (p : Pos) (c : Cell) (s : State) (log : list Call) :
  drawCell marginX marginY p c (s, log)
  = ((drawCell marginX marginY p c (s, [])).1,
     log ++ (drawCell marginX marginY p c (s, [])).2).
Proof.
  unfold drawCell. destruct c as [ch co]. case_decide.
  - cbn. now rewrite app_nil_r.
  - destruct (charMap s !! p); reflexivity.
Qed.

Lemma step_log (p : Pos) (s : State) (log : list Call) :
  step f marginX marginY (s, log) p
  = ((step f marginX marginY (s, []) p).1,
     log ++ (step f marginX marginY (s, []) p).2).
Proof.
  unfold step. destruct (cellOf f p); [apply drawCell_log |].
  cbn. now rewrite app_nil_r.
Qed.

Lemma drawAll_log (ps : list Pos) (s : State) (log : list Call) :
  drawAll f marginX marginY ps (s, log)
  = ((drawAll f marginX marginY ps (s, [])).1,
     log ++ (drawAll f marginX marginY ps (s, [])).2).
Proof.
  revert s log. induction ps as [|p ps IH]; intros s log.
  - cbn. now rewrite app_nil_r.
  - unfold drawAll in *. cbn [fold_left].
    rewrite (step_log p s log).
    destruct (step f marginX marginY (s, []) p) as [s1 n1]. cbn [fst snd].
    rewrite (IH s1 (log ++ n1)), (IH s1 n1). cbn [fst snd].
    now rewrite app_assoc.
Qed.

Lemma drawAll_cons (p : Pos) (ps : list Pos) (s : State) :
  drawAll f marginX marginY (p :: ps) (s, [])
  = let r1 := step f marginX marginY (s, []) p in
    let r2 := drawAll f marginX marginY ps (r1.1, []) in
    (r2.1, r1.2 ++ r2.2).
Proof.
  unfold drawAll. cbn [fold_left]. fold (drawAll f marginX marginY).
  destruct (step f marginX marginY (s, []) p) as [s1 n1].
  cbn [fst snd]. apply drawAll_log.
Qed.

Lemma step_outcome (s : State) (p : Pos) :
  visit_outcome f marginX marginY s p (step f marginX marginY (s, []) p).
Proof.
  unfold step. destruct (cellOf f p) as [[ch co]|] eqn:Ec.
  - unfold drawCell. case_decide as Hlf.
    + apply visit_skip. intros c Hc. congruence.
    + destruct (charMap s !! p) as [h|] eqn:Eh.
      * now apply visit_update.
      * now apply visit_create.
  - apply visit_skip. intros c Hc. congruence.
Qed.

Lemma outcome_other (s : State) (p q : Pos) (r : State * list Call) :
  visit_outcome f marginX marginY s p r -> q <> p ->
  lastFrame r.1 !! q = lastFrame s !! q /\ charMap r.1 !! q = charMap s !! q.
Proof.
  intros [Hs | ch co h Hc Hn Hh | ch co Hc Hn Hh] Hq; cbn [fst lastFrame charMap];
    rewrite ?lookup_insert_ne by congruence; auto.
Qed.

Lemma outcome_handle_stable (s : State) (p q : Pos) (h : nat) (r : State * list Call) :
  visit_outcome f marginX marginY s p r -> charMap s !! q = Some h -> charMap r.1 !! q = Some h.
Proof.
  intros [Hs | ch co h' Hc Hn Hh | ch co Hc Hn Hh] Hq; cbn [fst charMap]; auto.
  destruct (decide (q = p)) as [-> | Hne]; [congruence |].
  now rewrite lookup_insert_ne by congruence.
Qed.

Lemma outcome_recorded (s : State) (p : Pos) (c : Cell) (r : State * list Call) :
  visit_outcome f marginX marginY s p r -> cellOf f p = Some c -> lastFrame r.1 !! p = Some c.
Proof.
  intros [Hs | ch co h Hc Hn Hh | ch co Hc Hn Hh] Hp; cbn [fst lastFrame]; auto;
    rewrite lookup_insert_eq; congruence.
Qed.

Lemma outcome_calls (s : State) (p : Pos) (r : State * list Call) :
  visit_outcome f marginX marginY s p r ->
  (length r.2 <= 1)%nat
  /\ forall c, c ∈ r.2 -> exists h, call_id c = Some h /\ charMap r.1 !! p = Some h.
Proof.
  intros [Hs | ch co h Hc Hn Hh | ch co Hc Hn Hh]; cbn [fst snd charMap length];
    (split; [lia |]); intros c Hin.
  - inversion Hin.
  - apply list_elem_of_singleton in Hin as ->. eauto.
  - apply list_elem_of_singleton in Hin as ->. cbn [call_id].
    eexists. split; [reflexivity |]. apply lookup_insert_eq.
Qed.

Lemma outcome_created (s : State) (p : Pos) (r : State * list Call)
    (h : nat) (x y : Z) (ch : ascii) (co : string) :
  visit_outcome f marginX marginY s p r -> create_text h x y ch co ∈ r.2 ->
  x = marginX + Z.of_nat p.1 * cellWidth
  /\ y = marginY + Z.of_nat p.2 * cellHeight
  /\ cellOf f p = Some (ch, co)
  /\ charMap s !! p = None /\ charMap r.1 !! p = Some h
  /\ shown r.1 h = Some (mkItem x y ch co "TkFixedFont" "nw" "asciiFrame").
Proof.
  intros [Hs | ch' co' h' Hc Hn Hh | ch' co' Hc Hn Hh] Hin; cbn [fst snd] in *.
  - inversion Hin.
  - apply list_elem_of_singleton in Hin. discriminate.
  - apply list_elem_of_singleton in Hin. injection Hin as -> -> -> -> ->.
    cbn [charMap shown items]. rewrite lookup_insert_eq.
    repeat split; auto. now rewrite list_lookup_middle.
Qed.

Lemma shown_itemconfig_ne (s : State) (h k : nat) (ch : ascii) (co : string)
    (lf : gmap Pos Cell) (cm : gmap Pos nat) :
  h <> k ->
  shown (mkState lf cm (canvas_itemconfig h ch co (items s))) k = shown s k.
Proof.
  intros Hne. destruct k as [|k]; [reflexivity |]. cbn [shown items].
  destruct h as [|h]; [reflexivity |]. cbn [canvas_itemconfig].
  apply list_lookup_alter_ne. congruence.
Qed.

Lemma outcome_shown_other (s : State) (p q : Pos) (h : nat) (r : State * list Call) :
  Inv s -> visit_outcome f marginX marginY s p r -> q <> p -> charMap s !! q = Some h ->
  shown r.1 h = shown s h.
Proof.
  intros HI [Hs | ch co h' Hc Hn Hh | ch co Hc Hn Hh] Hq Hqh; cbn [fst]; auto.
  - apply shown_itemconfig_ne. intros ->. apply Hq.
    exact (inv_inj s HI q p h Hqh Hh).
  - pose proof (inv_handle s HI q h Hqh) as Hb.
    destruct h as [|k]; [reflexivity |]. cbn [shown items].
    apply lookup_app_l. lia.
Qed.

Lemma outcome_inv (s : State) (p : Pos) (r : State * list Call) :
  Inv s -> visit_outcome f marginX marginY s p r -> Inv r.1.
Proof.
  intros HI [Hs | ch co h Hc Hn Hh | ch co Hc Hn Hh]; cbn [fst]; auto.
  - (* update *)
    pose proof (inv_handle s HI p h Hh) as Hb.
    assert (Hlen : length (canvas_itemconfig h ch co (items s)) = length (items s)).
    { destruct h; [reflexivity |]. apply length_alter. }
    constructor; cbn [lastFrame charMap items].
    + rewrite dom_insert_L, (inv_dom s HI).
      apply subseteq_union_1_L, singleton_subseteq_l, elem_of_dom. eauto.
    + intros q k Hq. rewrite Hlen. exact (inv_handle s HI q k Hq).
    + exact (inv_inj s HI).
    + rewrite Hlen. exact (inv_size s HI).
    + intros q k Hq. destruct (decide (q = p)) as [-> | Hne].
      * assert (k = h) as -> by congruence.
        destruct (inv_shown s HI p h Hh) as (it & Hit & _).
        destruct h as [|h]; [lia |]. cbn [shown canvas_itemconfig items] in *.
        rewrite list_lookup_alter_eq, Hit. cbn.
        eexists. split; [reflexivity |]. cbn. apply lookup_insert_eq.
      * rewrite lookup_insert_ne by congruence.
        rewrite shown_itemconfig_ne; [exact (inv_shown s HI q k Hq) |].
        intros ->. apply Hne. exact (inv_inj s HI q p k Hq Hh).
  - (* create *)
    constructor; cbn [lastFrame charMap items].
    + rewrite !dom_insert_L, (inv_dom s HI). reflexivity.
    + intros q k Hq. rewrite length_app. cbn [length].
      destruct (decide (q = p)) as [-> | Hne].
      * rewrite lookup_insert_eq in Hq. injection Hq as <-. lia.
      * rewrite lookup_insert_ne in Hq by congruence.
        pose proof (inv_handle s HI q k Hq). lia.
    + intros q q' k Hq Hq'.
      destruct (decide (q = p)) as [-> | Hne];
        destruct (decide (q' = p)) as [-> | Hne']; auto.
      * rewrite lookup_insert_eq in Hq. injection Hq as <-.
        rewrite lookup_insert_ne in Hq' by congruence.
        pose proof (inv_handle s HI q' _ Hq'). lia.
      * rewrite lookup_insert_eq in Hq'. injection Hq' as <-.
        rewrite lookup_insert_ne in Hq by congruence.
        pose proof (inv_handle s HI q _ Hq). lia.
      * rewrite lookup_insert_ne in Hq, Hq' by congruence.
        exact (inv_inj s HI q q' k Hq Hq').
    + rewrite map_size_insert_None by exact Hh.
      rewrite length_app, (inv_size s HI). cbn [length]. lia.
    + intros q k Hq. destruct (decide (q = p)) as [-> | Hne].
      * rewrite lookup_insert_eq in Hq. injection Hq as <-.
        cbn [shown items]. rewrite list_lookup_middle by reflexivity.
        eexists. split; [reflexivity |]. cbn. apply lookup_insert_eq.
      * rewrite lookup_insert_ne in Hq by congruence.
        rewrite lookup_insert_ne by congruence.
        destruct (inv_shown s HI q k Hq) as (it & Hit & Hlf).
        pose proof (inv_handle s HI q k Hq) as Hb.
        exists it. split; [| exact Hlf].
        destruct k as [|k]; [lia |]. cbn [shown items] in *.
        rewrite lookup_app_l by lia. exact Hit.
Qed.

(** *** A run of cell visits *)

Ltac split_run p ps s :=
  rewrite (drawAll_cons p ps s); cbv zeta;
  pose proof (step_outcome s p);
  destruct (step f marginX marginY (s, []) p) as [?s1 ?n1]; cbn [fst snd] in *.

Lemma drawAll_inv (ps : list Pos) (s : State) :
  Inv s -> Inv (drawAll f marginX marginY ps (s, [])).1.
Proof.
  revert s. induction ps as [|p ps IH]; intros s HI; [exact HI |].
  split_run p ps s. apply IH. exact (outcome_inv s p _ HI H).
Qed.

Lemma drawAll_other (ps : list Pos) (s : State) (q : Pos) :
  q ∉ ps ->
  lastFrame (drawAll f marginX marginY ps (s, [])).1 !! q = lastFrame s !! q
  /\ charMap (drawAll f marginX marginY ps (s, [])).1 !! q = charMap s !! q.
Proof.
  revert s. induction ps as [|p ps IH]; intros s Hq; [auto |].
  apply not_elem_of_cons in Hq as [Hqp Hq].
  split_run p ps s.
  destruct (IH s1 Hq) as [-> ->]. exact (outcome_other s p q _ H Hqp).
Qed.

Lemma drawAll_handle_stable (ps : list Pos) (s : State) (q : Pos) (h : nat) :
  charMap s !! q = Some h ->
  charMap (drawAll f marginX marginY ps (s, [])).1 !! q = Some h.
Proof.
  revert s. induction ps as [|p ps IH]; intros s Hq; [auto |].
  split_run p ps s. apply IH. exact (outcome_handle_stable s p q h _ H Hq).
Qed.

Lemma drawAll_shown_other (ps : list Pos) (s : State) (q : Pos) (h : nat) :
  Inv s -> q ∉ ps -> charMap s !! q = Some h ->
  shown (drawAll f marginX marginY ps (s, [])).1 h = shown s h.
Proof.
  revert s. induction ps as [|p ps IH]; intros s HI Hq Hh; [auto |].
  apply not_elem_of_cons in Hq as [Hqp Hq].
  split_run p ps s.
  rewrite IH; [exact (outcome_shown_other s p q h _ HI H Hqp Hh) | | exact Hq |].
  - exact (outcome_inv s p _ HI H).
  - exact (outcome_handle_stable s p q h _ H Hh).
Qed.

Lemma drawAll_recorded (ps : list Pos) (s : State) (p : Pos) (c : Cell) :
  p ∈ ps -> cellOf f p = Some c ->
  lastFrame (drawAll f marginX marginY ps (s, [])).1 !! p = Some c.
Proof.
  revert s. induction ps as [|p0 ps IH]; intros s Hp Hc; [inversion Hp |].
  split_run p0 ps s.
  destruct (decide (p ∈ ps)) as [Hin | Hnin]; [now apply IH |].
  apply elem_of_cons in Hp as [-> | Hp]; [| contradiction].
  destruct (drawAll_other ps s1 p0 Hnin) as [-> _].
  exact (outcome_recorded s p0 c _ H Hc).
Qed.

Lemma drawAll_idle (ps : list Pos) (s : State) :
  (forall p c, p ∈ ps -> cellOf f p = Some c -> lastFrame s !! p = Some c) ->
  drawAll f marginX marginY ps (s, []) = (s, []).
Proof.
  induction ps as [|p ps IH]; intros Hrec; [reflexivity |].
  unfold drawAll. cbn [fold_left]. fold (drawAll f marginX marginY).
  assert (Hstep : step f marginX marginY (s, []) p = (s, [])).
  { unfold step. destruct (cellOf f p) as [[ch co]|] eqn:Ec; [| reflexivity].
    unfold drawCell. rewrite decide_True; [reflexivity |].
    apply Hrec; [left | exact Ec]. }
  rewrite Hstep. apply IH. intros q c Hq. apply Hrec. now right.
Qed.

Lemma drawAll_calls (ps : list Pos) (s : State) (c : Call) :
  c ∈ (drawAll f marginX marginY ps (s, [])).2 ->
  exists h p, call_id c = Some h /\ p ∈ ps
    /\ charMap (drawAll f marginX marginY ps (s, [])).1 !! p = Some h.
Proof.
  revert s. induction ps as [|p ps IH]; intros s Hc; [inversion Hc |].
  revert Hc. split_run p ps s. intros Hc.
  apply elem_of_app in Hc as [Hc | Hc].
  - destruct (outcome_calls s p _ H) as [_ Hid].
    destruct (Hid c Hc) as (h & Hh & Hp). exists h, p.
    split; [exact Hh |]. split; [left |].
    now apply drawAll_handle_stable.
  - destruct (IH s1 Hc) as (h & q & Hh & Hq & Hm). exists h, q.
    split; [exact Hh |]. split; [now right | exact Hm].
Qed.

Lemma drawAll_created (ps : list Pos) (s : State)
    (h : nat) (x y : Z) (ch : ascii) (co : string) :
  Inv s ->
  create_text h x y ch co ∈ (drawAll f marginX marginY ps (s, [])).2 ->
  exists p, p ∈ ps
    /\ x = marginX + Z.of_nat p.1 * cellWidth
    /\ y = marginY + Z.of_nat p.2 * cellHeight
    /\ cellOf f p = Some (ch, co)
    /\ charMap s !! p = None
    /\ charMap (drawAll f marginX marginY ps (s, [])).1 !! p = Some h
    /\ (h = S (length (items s)) \/ (length (items s) < h)%nat).
Proof.
  revert s. induction ps as [|p ps IH]; intros s HI Hc; [inversion Hc |].
  revert Hc. split_run p ps s. intros Hc.
  apply elem_of_app in Hc as [Hc | Hc].
  - destruct (outcome_created s p _ h x y ch co H Hc) as (-> & -> & Hcell & Hn & Hs & _).
    exists p. repeat split; auto; [left | now apply drawAll_handle_stable |].
    inversion H; subst; cbn [snd] in Hc.
    + inversion Hc.
    + apply list_elem_of_singleton in Hc. discriminate.
    + apply list_elem_of_singleton in Hc. injection Hc as ->. now left.
  - destruct (IH s1 (outcome_inv s p _ HI H) Hc)
      as (q & Hq & -> & -> & Hcell & Hn & Hs & Hlen).
    exists q. repeat split; auto; [now right | |].
    + destruct (charMap s !! q) as [k|] eqn:Ek; [| reflexivity].
      pose proof (outcome_handle_stable s p q k _ H Ek) as Hk.
      cbn [fst] in Hk. congruence.
    + right. assert (length (items s) <= length (items s1))%nat; [| lia].
      inversion H; subst; cbn [items]; rewrite ?length_app; try lia.
      destruct h0; cbn [canvas_itemconfig]; rewrite ?length_alter; lia.
Qed.

Lemma drawAll_ids_NoDup (ps : list Pos) (s : State) :
  Inv s -> NoDup ps ->
  NoDup (call_ids (drawAll f marginX marginY ps (s, [])).2).
Proof.
  revert s. induction ps as [|p ps IH]; intros s HI Hnd; [constructor |].
  apply NoDup_cons in Hnd as [Hp Hnd].
  pose proof (drawAll_inv ps) as HIall.
  pose proof (drawAll_calls ps) as Hcalls.
  pose proof (drawAll_handle_stable ps) as Hstable.
  split_run p ps s.
  assert (HI1 : Inv s1) by exact (outcome_inv s p _ HI H).
  unfold call_ids. rewrite omap_app. apply NoDup_app.
  destruct (outcome_calls s p _ H) as [Hlen Hid].
  split; [| split].
  - destruct n1 as [|c [|c' n1]]; cbn in *; try lia; [constructor |].
    destruct (call_id c); [apply NoDup_singleton | constructor].
  - intros h Hh Hh'.
    apply list_elem_of_omap in Hh as (c & Hc & Hch).
    apply list_elem_of_omap in Hh' as (c' & Hc' & Hch').
    destruct (Hid c Hc) as (k & Hk & Hpk).
    destruct (Hcalls s1 c' Hc') as (k' & q & Hk' & Hq & Hqk).
    assert (k = h) as -> by congruence. assert (k' = h) as -> by congruence.
    apply (Hstable s1 p h) in Hpk.
    assert (p = q) as -> by exact (inv_inj _ (HIall s1 HI1) p q h Hpk Hqk).
    contradiction.
  - apply IH; assumption.
Qed.

(** Cells below the threshold take no part in a run. *)
Lemma drawAll_visible (ps : list Pos) (r : State * list Call) :
  drawAll f marginX marginY ps r = drawAll f marginX marginY (visible f ps) r.
Proof.
  revert r. induction ps as [|p ps IH]; intros r; [reflexivity |].
  unfold visible. rewrite filter_cons. fold (visible f ps).
  destruct (decide (is_Some (cellOf f p))) as [Hv | Hv].
  - unfold drawAll. cbn [fold_left]. apply IH.
  - assert (Hskip : step f marginX marginY r p = r).
    { unfold step. destruct (cellOf f p); [| reflexivity].
      exfalso. apply Hv. eauto. }
    unfold drawAll at 1. cbn [fold_left]. rewrite Hskip. apply IH.
Qed.

Lemma visible_spec (ps : list Pos) (p : Pos) :
  p ∈ visible f ps <-> p ∈ ps /\ is_Some (cellOf f p).
Proof. unfold visible. rewrite list_elem_of_filter. tauto. Qed.

Lemma visible_NoDup (ps : list Pos) : NoDup ps -> NoDup (visible f ps).
Proof. apply NoDup_filter. Qed.

(** An item, once created, stays where it was put. *)
Lemma outcome_place (s : State) (p : Pos) (r : State * list Call)
    (h : nat) (it : TextItem) :
  visit_outcome f marginX marginY s p r -> shown s h = Some it ->
  exists it', shown r.1 h = Some it'
    /\ item_x it' = item_x it /\ item_y it' = item_y it.
Proof.
  intros [Hs | ch co h' Hc Hn Hh | ch co Hc Hn Hh] Hit; cbn [fst]; eauto.
  - destruct h as [|k]; [discriminate |]. cbn [shown items] in *.
    destruct h' as [|k']; cbn [canvas_itemconfig]; eauto.
    destruct (decide (k' = k)) as [-> | Hne].
    + rewrite list_lookup_alter_eq, Hit. cbn. eauto.
    + rewrite list_lookup_alter_ne by exact Hne. eauto.
  - destruct h as [|k]; [discriminate |]. cbn [shown items] in *.
    exists it. rewrite lookup_app_l; [auto |].
    now apply lookup_lt_Some in Hit.
Qed.

Lemma drawAll_place (ps : list Pos) (s : State) (h : nat) (it : TextItem) :
  shown s h = Some it ->
  exists it', shown (drawAll f marginX marginY ps (s, [])).1 h = Some it'
    /\ item_x it' = item_x it /\ item_y it' = item_y it.
Proof.
  revert s it. induction ps as [|p ps IH]; intros s it Hit; [eauto |].
  split_run p ps s.
  destruct (outcome_place s p _ h it H Hit) as (it1 & Hit1 & <- & <-).
  exact (IH s1 it1 Hit1).
Qed.

Lemma drawAll_created_shown (ps : list Pos) (s : State)
    (h : nat) (x y : Z) (ch : ascii) (co : string) :
  create_text h x y ch co ∈ (drawAll f marginX marginY ps (s, [])).2 ->
  exists it, shown (drawAll f marginX marginY ps (s, [])).1 h = Some it
    /\ item_x it = x /\ item_y it = y.
Proof.
  revert s. induction ps as [|p ps IH]; intros s Hc; [inversion Hc |].
  pose proof (drawAll_place ps) as Hplace.
  revert Hc. split_run p ps s. intros Hc.
  apply elem_of_app in Hc as [Hc | Hc]; [| now apply IH].
  destruct (outcome_created s p _ h x y ch co H Hc) as (_ & _ & _ & _ & _ & Hit).
  destruct (Hplace s1 h _ Hit) as (it' & Hit' & Hx & Hy). eauto.
Qed.

(** *** What a run adds and what it calls *)

Lemma outcome_new_item (s : State) (p : Pos) (r : State * list Call)
    (h : nat) (it : TextItem) :
  visit_outcome f marginX marginY s p r ->
  (length (items s) < h)%nat -> shown r.1 h = Some it ->
  is_Some (cellOf f p)
  /\ item_x it = marginX + Z.of_nat p.1 * cellWidth
  /\ item_y it = marginY + Z.of_nat p.2 * cellHeight.
Proof.
  intros [Hs | ch co h' Hc Hn Hh | ch co Hc Hn Hh] Hlen Hit; cbn [fst] in Hit;
    destruct h as [|k]; try lia; cbn [shown items] in Hit.
  - apply lookup_lt_Some in Hit. lia.
  - apply lookup_lt_Some in Hit.
    destruct h'; cbn [canvas_itemconfig] in Hit; rewrite ?length_alter in Hit; lia.
  - assert (Hk : k = length (items s)).
    { apply lookup_lt_Some in Hit. rewrite length_app in Hit. cbn in Hit. lia. }
    subst k. rewrite list_lookup_middle in Hit by reflexivity.
    injection Hit as <-. cbn. split; [eauto | auto].
Qed.

(** Every item a run adds to the canvas lies at the place of a visible
    cell of the run. *)
Lemma drawAll_new_items (ps : list Pos) (s : State) (h : nat) (it : TextItem) :
  (length (items s) < h)%nat ->
  shown (drawAll f marginX marginY ps (s, [])).1 h = Some it ->
  exists p, p ∈ ps /\ is_Some (cellOf f p)
    /\ item_x it = marginX + Z.of_nat p.1 * cellWidth
    /\ item_y it = marginY + Z.of_nat p.2 * cellHeight.
Proof.
  revert s. induction ps as [|p ps IH]; intros s Hlen Hit.
  - cbn in Hit. destruct h as [|k]; [lia |]. cbn [shown] in Hit.
    apply lookup_lt_Some in Hit. lia.
  - pose proof (drawAll_place ps) as Hplace.
    revert Hit. split_run p ps s. intros Hit.
    destruct (decide (length (items s1) < h)%nat) as [Hnew | Hold].
    + destruct (IH s1 Hnew Hit) as (q & Hq & Hrest).
      exists q. split; [now right | exact Hrest].
    + destruct h as [|k]; [lia |].
      destruct (items s1 !! k) as [it1|] eqn:E1;
        [| apply lookup_ge_None in E1; lia].
      destruct (outcome_new_item s p (s1, n1) (S k) it1 H Hlen E1) as (Hv & Hx & Hy).
      destruct (Hplace s1 (S k) it1 E1) as (it' & Hit' & Hx' & Hy').
      rewrite Hit in Hit'. injection Hit' as <-.
      exists p. split; [left |]. split; [exact Hv |]. split; congruence.
Qed.

Lemma changed_other (s : State) (p q : Pos) (r : State * list Call) :
  visit_outcome f marginX marginY s p r -> q <> p ->
  Session.changed r.1 f q = Session.changed s f q.
Proof.
  intros Hout Hne. unfold Session.changed.
  destruct (outcome_other s p q r Hout Hne) as [-> _]. reflexivity.
Qed.

(** The calls of a run, in order: one for each changed position of the
    run, and no other. *)
Lemma drawAll_exact (ps : list Pos) (s : State) :
  NoDup ps ->
  Forall2 (fun p c => p ∈ ps
             /\ Session.call_for f marginX marginY s
                  (drawAll f marginX marginY ps (s, [])).1 p c)
          (List.filter (Session.changed s f) ps)
          (drawAll f marginX marginY ps (s, [])).2.
Proof.
  revert s. induction ps as [|p ps IH]; intros s Hnd; [constructor |].
  apply NoDup_cons in Hnd as [Hp Hnd].
  pose proof (drawAll_handle_stable ps) as Hstable.
  specialize (IH (step f marginX marginY (s, []) p).1 Hnd).
  assert (Hsame : List.filter (Session.changed (step f marginX marginY (s, []) p).1 f) ps
                  = List.filter (Session.changed s f) ps).
  { apply List.filter_ext_in. intros q Hq.
    apply (changed_other s p q _ (step_outcome s p)).
    intros ->. apply Hp. now apply list_elem_of_In. }
  rewrite Hsame in IH. clear Hsame.
  pose proof (step_outcome s p) as Hout.
  rewrite drawAll_cons. cbv zeta. cbn [fst snd].
  set (r1 := step f marginX marginY (s, []) p) in *.
  set (s' := (drawAll f marginX marginY ps (r1.1, [])).1) in *.
  assert (Htail : Forall2 (fun q c => q ∈ p :: ps
                             /\ Session.call_for f marginX marginY s s' q c)
                    (List.filter (Session.changed s f) ps)
                    (drawAll f marginX marginY ps (r1.1, [])).2).
  { eapply Forall2_impl; [exact IH |]. cbv beta.
    intros q c [Hq (ch & co & Hc & Hn & Hm)].
    assert (Hne : q <> p) by (intros ->; contradiction).
    destruct (outcome_other s p q r1 Hout Hne) as [Elf Ecm].
    split; [now right |]. exists ch, co. rewrite <- Elf, <- Ecm. auto. }
  cbn [List.filter]. unfold Session.changed at 1.
  destruct Hout as [Hs | ch co h Hc Hn Hh | ch co Hc Hn Hh]; cbn [snd app].
  - destruct (cellOf f p) as [c|]; [| exact Htail].
    rewrite bool_decide_eq_true_2 by auto. exact Htail.
  - rewrite Hc, bool_decide_eq_false_2 by exact Hn. cbn [negb].
    constructor; [| exact Htail]. split; [left |].
    exists ch, co. rewrite Hh. auto.
  - rewrite Hc, bool_decide_eq_false_2 by exact Hn. cbn [negb].
    constructor; [| exact Htail]. split; [left |].
    exists ch, co. rewrite Hh. split; [exact Hc |]. split; [exact Hn |].
    eexists. split; [reflexivity |].
    apply Hstable. cbn [fst charMap]. apply lookup_insert_eq.
Qed.

End DiffRenderer.

(** ** Activations of [updateCanvas] *)

Section Ticks.

Import GlyphMapper Renderer.

(** An activation with a frame never raises: it is the run of the frame's
    cell visits, followed by the rescheduling. *)
Lemma updateCanvas_run (t : Tick) (fr : Frame) (s : State) :
  frame t = Some fr ->
  updateCanvas t s = Some ((tickRun t fr s).1, (tickRun t fr s).2 ++ [after 1]).
Proof.
  intros Hf. unfold updateCanvas. rewrite Hf. cbv zeta.
  rewrite renderLoop_drawAll. fold (tickRun t fr s).
  now destruct (tickRun t fr s).
Qed.

Lemma initial_inv : Inv initial.
Proof.
  constructor; cbn [initial lastFrame charMap items].
  - now rewrite !dom_empty_L.
  - intros p h Hp. now rewrite lookup_empty in Hp.
  - intros p q h Hp. now rewrite lookup_empty in Hp.
  - now rewrite map_size_empty.
  - intros p h Hp. now rewrite lookup_empty in Hp.
Qed.

Lemma updateCanvas_inv (t : Tick) (s s' : State) (log : list Call) :
  Inv s -> updateCanvas t s = Some (s', log) -> Inv s'.
Proof.
  intros HI. destruct (frame t) as [fr|] eqn:Hf.
  - rewrite (updateCanvas_run t fr s Hf). intros [= <- _].
    now apply drawAll_inv.
  - unfold updateCanvas. rewrite Hf. now intros [= <- _].
Qed.

Lemma reachable_inv (s : State) : reachable s -> Inv s.
Proof.
  induction 1 as [|s t s' log _ IH Hstep]; [exact initial_inv |].
  exact (updateCanvas_inv t s s' log IH Hstep).
Qed.

Lemma call_ids_after (log : list Call) :
  call_ids (log ++ [after 1]) = call_ids log.
Proof. unfold call_ids. rewrite omap_app. cbn. apply app_nil_r. Qed.

Lemma dark_cell_hidden (fr : Frame) (x y : nat) :
  gray fr y x < 10 -> cellOf fr (x, y) = None.
Proof.
  intros Hd. unfold cellOf, mapCell. cbn [fst snd].
  unfold threshold. now rewrite (proj2 (Z.ltb_lt _ _) Hd).
Qed.

Lemma visible_cell_bright (fr : Frame) (p : Pos) :
  is_Some (cellOf fr p) -> 10 <= gray fr p.2 p.1.
Proof.
  intros [c Hc]. destruct (Z.lt_ge_cases (gray fr p.2 p.1) 10) as [Hd | Hb]; [| exact Hb].
  destruct p as [x y]. rewrite (dark_cell_hidden fr x y Hd) in Hc. discriminate.
Qed.

Lemma cell_place_inj (mx my : Z) (p q : Pos) :
  (mx + Z.of_nat p.1 * cellWidth, my + Z.of_nat p.2 * cellHeight)
  = (mx + Z.of_nat q.1 * cellWidth, my + Z.of_nat q.2 * cellHeight) ->
  p = q.
Proof.
  unfold cellWidth, cellHeight. intros [= Hx Hy].
  destruct p as [px py], q as [qx qy]. cbn [fst snd] in *. f_equal; lia.
Qed.

(** C2. A cell whose brightness is below 10 in the current frame is left
    out of the activation.  What [lastFrame] and [charMap] hold for it is
    unchanged (so a cell without a handle gets none), the item its handle
    shows is unchanged and no call acts on that handle.  Nothing is drawn
    for it either: every canvas call of the activation is the call of
    another cell of the frame, one that is not below the threshold; no
    [create_text] is made at the cell's place; and no item the activation
    adds to the canvas lies at the cell's place. *)
Theorem dark_cell_untouched (s : State) (t : Tick) (fr : Frame) (x y : nat) :
  reachable s -> frame t = Some fr ->
  (x < cols fr)%nat -> (y < rows fr)%nat -> gray fr y x < 10 ->
  exists s' log,
    updateCanvas t s = Some (s', log)
    /\ lastFrame s' !! (x, y) = lastFrame s !! (x, y)
    /\ charMap s' !! (x, y) = charMap s !! (x, y)
    /\ (forall h, charMap s !! (x, y) = Some h ->
          shown s' h = shown s h /\ h ∉ call_ids log)
    /\ (forall c, c ∈ log ->
          c = after 1
          \/ exists x' y' h,
               (x', y') <> (x, y)
               /\ (x' < cols fr)%nat /\ (y' < rows fr)%nat
               /\ 10 <= gray fr y' x'
               /\ call_id c = Some h /\ charMap s' !! (x', y') = Some h)
    /\ (forall h X Y ch co, create_text h X Y ch co ∈ log ->
          (X, Y) <> (margin (winfo_width t) (cols fr) cellWidth + Z.of_nat x * cellWidth,
                     margin (winfo_height t) (rows fr) cellHeight + Z.of_nat y * cellHeight))
    /\ (forall h it, (length (items s) < h)%nat -> shown s' h = Some it ->
          (item_x it, item_y it)
          <> (margin (winfo_width t) (cols fr) cellWidth + Z.of_nat x * cellWidth,
              margin (winfo_height t) (rows fr) cellHeight + Z.of_nat y * cellHeight)).
Proof.
  intros Hreach Hf _ _ Hdark.
  pose proof (reachable_inv s Hreach) as HI.
  pose proof (dark_cell_hidden fr x y Hdark) as Hnone.
  rewrite (updateCanvas_run t fr s Hf). eexists _, _. split; [reflexivity |].
  unfold tickRun. rewrite drawAll_visible.
  set (mx := margin (winfo_width t) (cols fr) cellWidth).
  set (my := margin (winfo_height t) (rows fr) cellHeight).
  set (ps := visible fr (positions fr)).
  assert (Hq : (x, y) ∉ ps).
  { intros Hin. apply visible_spec in Hin as [_ [c Hc]]. congruence. }
  assert (Hother : forall p, p ∈ ps ->
            p <> (x, y) /\ (p.1 < cols fr)%nat /\ (p.2 < rows fr)%nat
            /\ 10 <= gray fr p.2 p.1).
  { intros p Hp. split; [intros ->; contradiction |].
    apply visible_spec in Hp as [Hp Hv]. apply positions_spec in Hp as [Hx Hy].
    split; [exact Hx |]. split; [exact Hy |]. now apply visible_cell_bright. }
  destruct (drawAll_other fr mx my ps s (x, y) Hq) as [Hlf Hcm].
  pose proof (drawAll_inv fr mx my ps s HI) as HI'.
  split; [exact Hlf |]. split; [exact Hcm |].
  split; [| split; [| split]].
  - intros h Hh. split; [now apply (drawAll_shown_other fr mx my ps s (x, y)) |].
    rewrite call_ids_after. intros Hin.
    apply list_elem_of_omap in Hin as (c & Hc & Hid).
    destruct (drawAll_calls fr mx my ps s c Hc) as (h' & p & Hid' & Hp & Hph).
    assert (h' = h) as -> by congruence.
    rewrite <- Hcm in Hh.
    assert (p = (x, y)) as -> by exact (inv_inj _ HI' _ _ h Hph Hh).
    contradiction.
  - intros c Hc. apply elem_of_app in Hc as [Hc | Hc];
      [right | left; now apply list_elem_of_singleton in Hc].
    destruct (drawAll_calls fr mx my ps s c Hc) as (h & [x' y'] & Hid & Hp & Hph).
    destruct (Hother _ Hp) as (Hne & Hx & Hy & Hb).
    exists x', y', h. auto 10.
  - intros h X Y ch co Hc Heq.
    apply elem_of_app in Hc as [Hc | Hc];
      [| apply list_elem_of_singleton in Hc; discriminate].
    destruct (drawAll_created fr mx my ps s h X Y ch co HI Hc)
      as (p & Hp & -> & -> & _).
    destruct (Hother _ Hp) as (Hne & _). apply Hne.
    exact (cell_place_inj mx my p (x, y) Heq).
  - intros h it Hlen Hit Heq.
    destruct (drawAll_new_items fr mx my ps s h it Hlen Hit) as (p & Hp & _ & Hx & Hy).
    destruct (Hother _ Hp) as (Hne & _). apply Hne.
    apply (cell_place_inj mx my p (x, y)). rewrite <- Hx, <- Hy. exact Heq.
Qed.

Lemma afterFifty_reachable : reachable Scenes.afterFifty.
Proof.
  apply (reach_tick initial (Scenes.window (Some (Scenes.flatFrame 1 1 50)))
           Scenes.afterFifty [create_text 1 447 295 "%"%char "#000000"; after 1]);
    [constructor | vm_compute; reflexivity].
Qed.

Lemma dark_cell_untouched_witness :
  exists s' log,
    updateCanvas (Scenes.window (Some Scenes.pairFrame)) Scenes.afterFifty
      = Some (s', log)
    /\ lastFrame s' !! (0, 0)%nat = lastFrame Scenes.afterFifty !! (0, 0)%nat
    /\ charMap s' !! (0, 0)%nat = charMap Scenes.afterFifty !! (0, 0)%nat
    /\ (forall h, charMap Scenes.afterFifty !! (0, 0)%nat = Some h ->
          shown s' h = shown Scenes.afterFifty h /\ h ∉ call_ids log)
    /\ (forall c, c ∈ log ->
          c = after 1
          \/ exists x' y' h,
               (x', y') <> (0, 0)%nat
               /\ (x' < cols Scenes.pairFrame)%nat
               /\ (y' < rows Scenes.pairFrame)%nat
               /\ 10 <= gray Scenes.pairFrame y' x'
               /\ call_id c = Some h /\ charMap s' !! (x', y') = Some h)
    /\ (forall h X Y ch co, create_text h X Y ch co ∈ log ->
          (X, Y)
          <> (margin (winfo_width (Scenes.window (Some Scenes.pairFrame)))
                     (cols Scenes.pairFrame) cellWidth + Z.of_nat 0 * cellWidth,
              margin (winfo_height (Scenes.window (Some Scenes.pairFrame)))
                     (rows Scenes.pairFrame) cellHeight + Z.of_nat 0 * cellHeight))
    /\ (forall h it, (length (items Scenes.afterFifty) < h)%nat -> shown s' h = Some it ->
          (item_x it, item_y it)
          <> (margin (winfo_width (Scenes.window (Some Scenes.pairFrame)))
                     (cols Scenes.pairFrame) cellWidth + Z.of_nat 0 * cellWidth,
              margin (winfo_height (Scenes.window (Some Scenes.pairFrame)))
                     (rows Scenes.pairFrame) cellHeight + Z.of_nat 0 * cellHeight)).
Proof.
  apply (dark_cell_untouched Scenes.afterFifty
           (Scenes.window (Some Scenes.pairFrame)) Scenes.pairFrame 0 0);
    [exact afterFifty_reachable | reflexivity | simpl; lia | simpl; lia | simpl; lia].
Defined.

(** The scenario of the specification: a cell lit at brightness 50, then
    dark at brightness 5, keeps the glyph it was drawn with. *)
Example fifty_then_five :
  exists s' it,
    updateCanvas (Scenes.window (Some (Scenes.flatFrame 1 1 5))) Scenes.afterFifty
      = Some (s', [after 1])
    /\ lastFrame s' !! (0, 0)%nat = Some ("%"%char, "#000000"%string)
    /\ charMap s' !! (0, 0)%nat = Some 1%nat
    /\ shown s' 1 = Some it /\ item_text it = "%"%char.
Proof. eexists _, _. vm_compute. repeat split; reflexivity. Qed.

Lemma ids_filter_le (log : list Call) (h : nat) :
  NoDup (call_ids log) ->
  (length (filter (fun c => call_id c = Some h) log) <= 1)%nat.
Proof.
  induction log as [|c log IH]; intros Hnd; [cbn; lia |].
  rewrite filter_cons. unfold call_ids in *. cbn [omap list_omap] in Hnd.
  destruct (decide (call_id c = Some h)) as [Hc | Hc].
  - rewrite Hc in Hnd. apply NoDup_cons in Hnd as [Hh _].
    destruct (filter (fun c => call_id c = Some h) log) as [|c' l] eqn:El;
      [cbn; lia |].
    exfalso. apply Hh. apply list_elem_of_omap. exists c'.
    assert (Hc' : c' ∈ filter (fun c => call_id c = Some h) log)
      by (rewrite El; left).
    now apply list_elem_of_filter in Hc'.
  - apply IH. destruct (call_id c); [now apply NoDup_cons in Hnd |exact Hnd].
Qed.

(** C3. An activation makes exactly one canvas call for each position of
    the frame that changed (its cell is not below the threshold and its
    glyph or colour is not the one [lastFrame] holds), in the order of the
    scan, and none for any other position: an update of the position's item
    when it had a handle, the creation of its item when it had none.  The
    positions are distinct, so a position gets at most one creation or
    update, and no two calls act on the same item.  And an activation whose
    frame has the glyph mapping of the previous one makes no canvas call at
    all (it only reschedules itself) and leaves the state as it was. *)
Theorem diff_render_idempotent (s : State) (t1 : Tick) (f1 : Frame) :
  reachable s -> frame t1 = Some f1 ->
  exists s1 log1 calls,
    updateCanvas t1 s = Some (s1, log1)
    /\ log1 = calls ++ [after 1]
    /\ NoDup (List.filter (Session.changed s f1) (positions f1))
    /\ Forall2 (Session.call_for f1 (margin (winfo_width t1) (cols f1) cellWidth)
                                 (margin (winfo_height t1) (rows f1) cellHeight) s s1)
               (List.filter (Session.changed s f1) (positions f1)) calls
    /\ NoDup (call_ids log1)
    /\ (forall p h, charMap s1 !! p = Some h ->
          (length (filter (fun c => call_id c = Some h) log1) <= 1)%nat)
    /\ forall t2 f2,
         frame t2 = Some f2 ->
         (forall p, glyphMapping f2 p = glyphMapping f1 p) ->
         updateCanvas t2 s1 = Some (s1, [after 1]).
Proof.
  intros Hreach Hf1. pose proof (reachable_inv s Hreach) as HI.
  rewrite (updateCanvas_run t1 f1 s Hf1). eexists _, _, _.
  split; [reflexivity |]. split; [reflexivity |].
  split; [apply NoDup_ListNoDup, List.NoDup_filter, NoDup_ListNoDup, positions_NoDup |].
  split.
  { unfold tickRun. eapply Forall2_impl;
      [apply drawAll_exact, positions_NoDup | cbv beta; now intros p c [_ Hc]]. }
  assert (Hnd : NoDup (call_ids ((tickRun t1 f1 s).2 ++ [after 1]))).
  { rewrite call_ids_after. apply drawAll_ids_NoDup; [exact HI |].
    apply positions_NoDup. }
  split; [exact Hnd |]. split; [intros p h _; now apply ids_filter_le |].
  intros t2 f2 Hf2 Hsame. rewrite (updateCanvas_run t2 f2 _ Hf2).
  assert (Hidle : tickRun t2 f2 (tickRun t1 f1 s).1 = ((tickRun t1 f1 s).1, [])).
  { apply drawAll_idle. intros p c Hp Hc.
    pose proof (Hsame p) as Hm. unfold glyphMapping in Hm.
    rewrite decide_True in Hm by now apply positions_spec.
    rewrite Hc in Hm. case_decide as Hin; [| discriminate].
    apply drawAll_recorded; [now apply positions_spec | now symmetry]. }
  now rewrite Hidle.
Qed.

Lemma diff_render_idempotent_witness :
  exists s1 log1 calls,
    updateCanvas (Scenes.window (Some Scenes.pairFrame)) initial = Some (s1, log1)
    /\ log1 = calls ++ [after 1]
    /\ NoDup (List.filter (Session.changed initial Scenes.pairFrame)
                          (positions Scenes.pairFrame))
    /\ Forall2 (Session.call_for Scenes.pairFrame
                  (margin (winfo_width (Scenes.window (Some Scenes.pairFrame)))
                          (cols Scenes.pairFrame) cellWidth)
                  (margin (winfo_height (Scenes.window (Some Scenes.pairFrame)))
                          (rows Scenes.pairFrame) cellHeight) initial s1)
               (List.filter (Session.changed initial Scenes.pairFrame)
                            (positions Scenes.pairFrame)) calls
    /\ NoDup (call_ids log1)
    /\ (forall p h, charMap s1 !! p = Some h ->
          (length (filter (fun c => call_id c = Some h) log1) <= 1)%nat)
    /\ forall t2 f2,
         frame t2 = Some f2 ->
         (forall p, glyphMapping f2 p = glyphMapping Scenes.pairFrame p) ->
         updateCanvas t2 s1 = Some (s1, [after 1]).
Proof.
  apply (diff_render_idempotent initial (Scenes.window (Some Scenes.pairFrame))
           Scenes.pairFrame); [constructor | reflexivity].
Defined.

(** Two scenarios of the specification, after the transform: a uniformly
    grey frame creates one item per cell and the same frame again changes
    nothing; a uniformly black frame draws nothing. *)
Example grey_frame_twice :
  match updateCanvas (Scenes.window (Some (Scenes.flatFrame 2 3 128))) initial with
  | Some (s1, log1) =>
      length (items s1) = 6%nat /\ length log1 = 7%nat
      /\ updateCanvas (Scenes.window (Some (Scenes.flatFrame 2 3 128))) s1
         = Some (s1, [after 1])
  | None => False
  end.
Proof. vm_compute. repeat split; reflexivity. Qed.

Example black_frame_draws_nothing :
  updateCanvas (Scenes.window (Some (Scenes.flatFrame 2 3 0))) initial
  = Some (initial, [after 1]).
Proof. vm_compute. reflexivity. Qed.

Lemma margin_centred (avail : Z) (cells : nat) (cellSize : Z) :
  Z.of_nat cells * cellSize <= avail ->
  centred (margin avail cells cellSize) avail (Z.of_nat cells * cellSize).
Proof.
  intros Hfit. unfold centred, margin.
  pose proof (Z.div_mod (avail - Z.of_nat cells * cellSize) 2 ltac:(lia)) as Hdm.
  pose proof (Z.mod_pos_bound (avail - Z.of_nat cells * cellSize) 2 ltac:(lia)).
  lia.
Qed.

Lemma margin_clamped (avail : Z) (cells : nat) (cellSize : Z) :
  avail <= Z.of_nat cells * cellSize -> margin avail cells cellSize = 0.
Proof.
  intros Hsmall. unfold margin.
  assert ((avail - Z.of_nat cells * cellSize) / 2 <= 0); [| lia].
  apply Z.div_le_upper_bound; lia.
Qed.

(** C8, as amended. An item is created once for a position, the first time
    the position is drawn, at [(marginX + x * cellWidth, marginY + y *
    cellHeight)], and it stays there; the margins are those of lines 89-90,
    [max(0, (canvas size - grid size) // 2)]: they centre the grid when
    the canvas is at least as large as the grid, and are 0 when it is not. *)
Theorem created_item_placement (s s' : State) (t : Tick) (fr : Frame)
    (log : list Call) (h : nat) (X Y : Z) (ch : ascii) (co : string) :
  reachable s -> frame t = Some fr ->
  updateCanvas t s = Some (s', log) ->
  create_text h X Y ch co ∈ log ->
  let marginX := margin (winfo_width t) (cols fr) cellWidth in
  let marginY := margin (winfo_height t) (rows fr) cellHeight in
  (exists x y,
      (x < cols fr)%nat /\ (y < rows fr)%nat
      /\ charMap s !! (x, y) = None /\ charMap s' !! (x, y) = Some h
      /\ X = marginX + Z.of_nat x * cellWidth
      /\ Y = marginY + Z.of_nat y * cellHeight)
  /\ (exists it, shown s' h = Some it /\ item_x it = X /\ item_y it = Y)
  /\ marginX = Z.max 0 ((winfo_width t - Z.of_nat (cols fr) * cellWidth) / 2)
  /\ marginY = Z.max 0 ((winfo_height t - Z.of_nat (rows fr) * cellHeight) / 2)
  /\ (Z.of_nat (cols fr) * cellWidth <= winfo_width t ->
      centred marginX (winfo_width t) (Z.of_nat (cols fr) * cellWidth))
  /\ (Z.of_nat (rows fr) * cellHeight <= winfo_height t ->
      centred marginY (winfo_height t) (Z.of_nat (rows fr) * cellHeight))
  /\ (winfo_width t <= Z.of_nat (cols fr) * cellWidth -> marginX = 0)
  /\ (winfo_height t <= Z.of_nat (rows fr) * cellHeight -> marginY = 0).
Proof.
  intros Hreach Hf Hrun Hin mx my.
  pose proof (reachable_inv s Hreach) as HI.
  rewrite (updateCanvas_run t fr s Hf) in Hrun. injection Hrun as <- <-.
  apply elem_of_app in Hin as [Hin | Hin];
    [| apply list_elem_of_singleton in Hin; discriminate].
  unfold tickRun in *. fold mx my in Hin |- *.
  split; [| split].
  - destruct (drawAll_created fr mx my _ s h X Y ch co HI Hin)
      as ([x y] & Hp & HX & HY & _ & Hnone & Hsome & _).
    apply positions_spec in Hp as [Hx Hy]. exists x, y.
    cbn [fst snd] in *. repeat split; assumption.
  - exact (drawAll_created_shown fr mx my _ s h X Y ch co Hin).
  - split; [reflexivity |]. split; [reflexivity |].
    split; [apply margin_centred |]. split; [apply margin_centred |].
    split; apply margin_clamped.
Qed.

Lemma created_item_placement_witness :
  (exists x y,
      (x < cols Scenes.pairFrame)%nat /\ (y < rows Scenes.pairFrame)%nat
      /\ charMap initial !! (x, y) = None
      /\ charMap Scenes.afterPair !! (x, y) = Some 1%nat
      /\ 450 = margin 900 (cols Scenes.pairFrame) cellWidth + Z.of_nat x * cellWidth
      /\ 295 = margin 600 (rows Scenes.pairFrame) cellHeight + Z.of_nat y * cellHeight)
  /\ (exists it, shown Scenes.afterPair 1 = Some it /\ item_x it = 450 /\ item_y it = 295)
  /\ margin 900 (cols Scenes.pairFrame) cellWidth
      = Z.max 0 ((900 - Z.of_nat (cols Scenes.pairFrame) * cellWidth) / 2)
  /\ margin 600 (rows Scenes.pairFrame) cellHeight
      = Z.max 0 ((600 - Z.of_nat (rows Scenes.pairFrame) * cellHeight) / 2)
  /\ (Z.of_nat (cols Scenes.pairFrame) * cellWidth <= 900 ->
      centred (margin 900 (cols Scenes.pairFrame) cellWidth) 900
              (Z.of_nat (cols Scenes.pairFrame) * cellWidth))
  /\ (Z.of_nat (rows Scenes.pairFrame) * cellHeight <= 600 ->
      centred (margin 600 (rows Scenes.pairFrame) cellHeight) 600
              (Z.of_nat (rows Scenes.pairFrame) * cellHeight))
  /\ (900 <= Z.of_nat (cols Scenes.pairFrame) * cellWidth ->
      margin 900 (cols Scenes.pairFrame) cellWidth = 0)
  /\ (600 <= Z.of_nat (rows Scenes.pairFrame) * cellHeight ->
      margin 600 (rows Scenes.pairFrame) cellHeight = 0).
Proof.
  refine (created_item_placement initial Scenes.afterPair
            (Scenes.window (Some Scenes.pairFrame)) Scenes.pairFrame
            [create_text 1 450 295 "-" "#0040c0"; after 1] 1 450 295 "-" "#0040c0"
            _ _ _ _);
    [exact reach_initial | reflexivity | vm_compute; reflexivity | left].
Defined.

(** C8, as stated, fails on a canvas narrower than the grid: with the
    window at its minimum size (300x200) and a grid of 150 columns (750
    pixels), the first item is created at x = 0, a margin that does not
    centre the grid. *)
Lemma small_canvas_not_centred :
  match updateCanvas (Scenes.smallWindow (Some (Scenes.flatFrame 1 150 200))) initial with
  | Some (_, log) => head log
  | None => None
  end = Some (create_text 1 0 95 "-" "#c0c0c0")
  /\ ~ centred (0 - Z.of_nat 0 * cellWidth) 300 (Z.of_nat 150 * cellWidth).
Proof.
  split; [vm_compute; reflexivity |].
  unfold centred, cellWidth. cbn. lia.
Qed.

(** C9. With no frame available the activation only reschedules itself:
    its one call is [root.after(1, updateCanvas)], and the two tables and
    the canvas are as they were. *)
Theorem no_frame_is_noop (s : State) (t : Tick) :
  frame t = None -> updateCanvas t s = Some (s, [after 1]).
Proof. intros Hf. unfold updateCanvas. now rewrite Hf. Qed.

Lemma no_frame_is_noop_witness :
  updateCanvas (Scenes.window None) Scenes.afterFifty
  = Some (Scenes.afterFifty, [after 1]).
Proof. apply (no_frame_is_noop Scenes.afterFifty (Scenes.window None)). reflexivity. Defined.

(** C10. In every state of a session the two tables have the same domain;
    a position's handle is the id of one canvas item, no two positions share
    one, and the canvas holds as many items as there are handles; and the
    domains agree again after each single cell visit, so the two entries of
    a position are installed by the same visit. *)
Theorem tables_agree (s : State) :
  reachable s ->
  dom (lastFrame s) = dom (charMap s)
  /\ (forall p, is_Some (lastFrame s !! p) <-> is_Some (charMap s !! p))
  /\ (forall p h, charMap s !! p = Some h -> is_Some (shown s h))
  /\ (forall p q h, charMap s !! p = Some h -> charMap s !! q = Some h -> p = q)
  /\ size (charMap s) = length (items s)
  /\ forall fr marginX marginY x y log,
       exists r, visitCell fr marginX marginY y x (s, log) = Some r
                 /\ dom (lastFrame r.1) = dom (charMap r.1).
Proof.
  intros Hreach. pose proof (reachable_inv s Hreach) as HI.
  split; [exact (inv_dom s HI) |]. split; [| split; [| split; [| split]]].
  - intros p. rewrite <- !elem_of_dom. now rewrite (inv_dom s HI).
  - intros p h Hp. destruct (inv_shown s HI p h Hp) as (it & Hit & _). eauto.
  - exact (inv_inj s HI).
  - exact (inv_size s HI).
  - intros fr mx my x y log. rewrite visitCell_step. eexists. split; [reflexivity |].
    rewrite step_log. cbn [fst].
    apply inv_dom, (outcome_inv fr mx my s (x, y)); [exact HI |].
    apply step_outcome.
Qed.

Lemma tables_agree_witness :
  dom (lastFrame Scenes.afterFifty) = dom (charMap Scenes.afterFifty)
  /\ (forall p, is_Some (lastFrame Scenes.afterFifty !! p)
                <-> is_Some (charMap Scenes.afterFifty !! p))
  /\ (forall p h, charMap Scenes.afterFifty !! p = Some h ->
                  is_Some (shown Scenes.afterFifty h))
  /\ (forall p q h, charMap Scenes.afterFifty !! p = Some h ->
                    charMap Scenes.afterFifty !! q = Some h -> p = q)
  /\ size (charMap Scenes.afterFifty) = length (items Scenes.afterFifty)
  /\ forall fr marginX marginY x y log,
       exists r, visitCell fr marginX marginY y x (Scenes.afterFifty, log) = Some r
                 /\ dom (lastFrame r.1) = dom (charMap r.1).
Proof. apply (tables_agree Scenes.afterFifty). exact afterFifty_reachable. Defined.

End Ticks.

(** ** More on the glyph ramp *)

Section RampBands.

Import GlyphMapper.

Lemma glyphIndex_visible (b : Z) :
  10 <= b <= 255 -> glyphIndex b = Some ((b - 10) * 9 / 245).
Proof.
  intros Hb. unfold glyphIndex. rewrite (rawIndex_visible b Hb). cbn [option_map].
  assert (Hr : 0 <= (b - 10) * 9 / 245 <= 9).
  { split; [apply Z.div_pos; lia | apply Z.div_le_upper_bound; lia]. }
  unfold clampIndex. change (rampLength - 1) with 9.
  now rewrite Z.min_r, Z.max_r by lia.
Qed.

(** X1. On every brightness the loop lets through, lines 100-102 raise
    nothing: [int] gets a finite float, the index is within the ramp and
    the glyph is the character of the ramp at that index. *)
Theorem glyph_never_raises (b : Z) :
  10 <= b <= 255 ->
  exists i c,
    glyphIndex b = Some i /\ 0 <= i < rampLength
    /\ glyph b = Some c /\ String.get (Z.to_nat i) ASCII_CHARS = Some c.
Proof.
  intros Hb. pose proof (glyphIndex_visible b Hb) as Hi.
  assert (Hr : 0 <= (b - 10) * 9 / 245 <= 9).
  { split; [apply Z.div_pos; lia | apply Z.div_le_upper_bound; lia]. }
  destruct (ramp_get _ Hr) as [c Hc].
  exists ((b - 10) * 9 / 245), c. split; [exact Hi |].
  split; [change rampLength with 10; lia |]. split; [| exact Hc].
  unfold glyph. now rewrite Hi.
Qed.

Lemma glyph_never_raises_witness :
  exists i c,
    glyphIndex 128 = Some i /\ 0 <= i < rampLength
    /\ glyph 128 = Some c /\ String.get (Z.to_nat i) ASCII_CHARS = Some c.
Proof. apply (glyph_never_raises 128). lia. Defined.

(** X2. The bands of the ramp: brightness [b] gets glyph [i] exactly when
    245 i <= 9 (b - 10) < 245 (i + 1).  So the last glyph, the blank, is
    drawn for brightness 255 only, the first one up to brightness 37, and
    each of the ten glyphs is drawn for some brightness. *)
Theorem glyph_bands (b i : Z) :
  10 <= b <= 255 ->
  (glyphIndex b = Some i <-> 245 * i <= 9 * (b - 10) < 245 * (i + 1))
  /\ (glyphIndex b = Some 9 <-> b = 255)
  /\ (glyphIndex b = Some 0 <-> b <= 37)
  /\ (0 <= i <= 9 ->
      exists b', 10 <= b' <= 255 /\ glyphIndex b' = Some i).
Proof.
  intros Hb.
  assert (Hband : forall b j, 10 <= b <= 255 ->
            (glyphIndex b = Some j <-> 245 * j <= 9 * (b - 10) < 245 * (j + 1))).
  { clear. intros b j Hb. rewrite (glyphIndex_visible b Hb).
    pose proof (Z.mul_div_le ((b - 10) * 9) 245 ltac:(lia)) as H1.
    pose proof (Z.mul_succ_div_gt ((b - 10) * 9) 245 ltac:(lia)) as H2.
    split.
    - intros [= <-]. lia.
    - intros Hj. f_equal. symmetry.
      apply (Z.div_unique _ _ j ((b - 10) * 9 - 245 * j)); lia. }
  split; [apply Hband, Hb |]. split; [| split].
  - rewrite (Hband b 9 Hb). lia.
  - rewrite (Hband b 0 Hb). lia.
  - intros Hi. exists (10 + (245 * i + 8) / 9).
    assert (Hq : 245 * i <= 9 * ((245 * i + 8) / 9) < 245 * i + 9).
    { pose proof (Z.mul_div_le (245 * i + 8) 9 ltac:(lia)).
      pose proof (Z.mul_succ_div_gt (245 * i + 8) 9 ltac:(lia)). lia. }
    assert (Hb' : 10 <= 10 + (245 * i + 8) / 9 <= 255) by lia.
    split; [exact Hb' |]. apply (Hband _ i Hb'). lia.
Qed.

Lemma glyph_bands_witness :
  (glyphIndex 200 = Some 6 <-> 245 * 6 <= 9 * (200 - 10) < 245 * (6 + 1))
  /\ (glyphIndex 200 = Some 9 <-> 200 = 255)
  /\ (glyphIndex 200 = Some 0 <-> 200 <= 37)
  /\ (0 <= 6 <= 9 ->
      exists b', 10 <= b' <= 255 /\ glyphIndex b' = Some 6).
Proof. apply (glyph_bands 200 6). lia. Defined.

End RampBands.

(** ** More on the colour strings *)

Section ColourStrings.

Import GlyphMapper Palette.

Lemma bucket_range (c : Z) : 0 <= c <= 255 -> 0 <= c / 64 <= 3.
Proof.
  intros Hc. split; [apply Z.div_pos; lia |].
  assert (c / 64 < 4) by (apply Z.div_lt_upper_bound; lia). lia.
Qed.

Lemma compressColor_digits (r g b : Z) :
  0 <= r <= 255 -> 0 <= g <= 255 -> 0 <= b <= 255 ->
  compressColor r g b = colourString (r / 64) (g / 64) (b / 64).
Proof.
  intros Hr Hg Hb. unfold compressColor. cbn [quantize].
  rewrite !quantChannel_floor by assumption.
  pose proof (bucket_range r Hr) as Kr. pose proof (bucket_range g Hg) as Kg.
  pose proof (bucket_range b Hb) as Kb.
  assert (Er : r / 64 = 0 \/ r / 64 = 1 \/ r / 64 = 2 \/ r / 64 = 3) by lia.
  assert (Eg : g / 64 = 0 \/ g / 64 = 1 \/ g / 64 = 2 \/ g / 64 = 3) by lia.
  assert (Eb : b / 64 = 0 \/ b / 64 = 1 \/ b / 64 = 2 \/ b / 64 = 3) by lia.
  destruct Er as [-> | [-> | [-> | ->]]];
    destruct Eg as [-> | [-> | [-> | ->]]];
    destruct Eb as [-> | [-> | [-> | ->]]]; reflexivity.
Qed.

Lemma levelDigit_inj (j k : Z) :
  0 <= j <= 3 -> 0 <= k <= 3 -> levelDigit j = levelDigit k -> j = k.
Proof.
  intros Hj Hk.
  assert (Ej : j = 0 \/ j = 1 \/ j = 2 \/ j = 3) by lia.
  assert (Ek : k = 0 \/ k = 1 \/ k = 2 \/ k = 3) by lia.
  destruct Ej as [-> | [-> | [-> | ->]]];
    destruct Ek as [-> | [-> | [-> | ->]]]; cbn; congruence.
Qed.

(** X3. The colour of an 8-bit pixel is always a Tk colour of the form
    [#X0Y0Z0]: seven characters, [X], [Y] and [Z] being the digit 0, 4, 8
    or c of the channel's bucket [c // 64]. *)
Theorem compressColor_shape (r g b : Z) :
  0 <= r <= 255 -> 0 <= g <= 255 -> 0 <= b <= 255 ->
  compressColor r g b = colourString (r / 64) (g / 64) (b / 64)
  /\ String.length (compressColor r g b) = 7%nat
  /\ String.get 0 (compressColor r g b) = Some "#"%char.
Proof.
  intros Hr Hg Hb. rewrite (compressColor_digits r g b Hr Hg Hb).
  repeat split.
Qed.

Lemma compressColor_shape_witness :
  compressColor 200 70 5 = colourString (200 / 64) (70 / 64) (5 / 64)
  /\ String.length (compressColor 200 70 5) = 7%nat
  /\ String.get 0 (compressColor 200 70 5) = Some "#"%char.
Proof. apply (compressColor_shape 200 70 5); lia. Defined.

(** X4. Two 8-bit pixels get the same colour string exactly when their
    three channels fall in the same buckets of width 64: the string loses
    nothing of the quantised colour, and there are at most 64 of them. *)
Theorem compressColor_buckets (r g b r' g' b' : Z) :
  0 <= r <= 255 -> 0 <= g <= 255 -> 0 <= b <= 255 ->
  0 <= r' <= 255 -> 0 <= g' <= 255 -> 0 <= b' <= 255 ->
  (compressColor r g b = compressColor r' g' b'
   <-> r / 64 = r' / 64 /\ g / 64 = g' / 64 /\ b / 64 = b' / 64).
Proof.
  intros Hr Hg Hb Hr' Hg' Hb'.
  rewrite (compressColor_digits r g b), (compressColor_digits r' g' b') by assumption.
  split.
  - unfold colourString. intros [= Er Eg Eb].
    repeat split; apply levelDigit_inj; auto using bucket_range.
  - intros (-> & -> & ->). reflexivity.
Qed.

Lemma compressColor_buckets_witness :
  compressColor 200 70 5 = compressColor 255 127 63
  <-> 200 / 64 = 255 / 64 /\ 70 / 64 = 127 / 64 /\ 5 / 64 = 63 / 64.
Proof. apply (compressColor_buckets 200 70 5 255 127 63); lia. Defined.

End ColourStrings.

(** ** More on the resize step *)

Section ResizeShape.

Import Resize.

(** X5. A taller frame of the same width never gets fewer rows. *)
Theorem resize_monotone_height (h1 h2 w : Z) :
  0 <= h1 -> h1 <= h2 -> h2 < 2 ^ 31 -> 0 < w < 2 ^ 31 ->
  exists n1 n2,
    resizeFrame h1 w defaultWidth = Some (defaultWidth, n1)
    /\ resizeFrame h2 w defaultWidth = Some (defaultWidth, n2)
    /\ n1 <= n2.
Proof.
  intros H1 H12 H2 Hw.
  destruct (resizeFrame_height h1 w ltac:(lia) Hw) as (n1 & E1 & C1).
  destruct (resizeFrame_height h2 w ltac:(lia) Hw) as (n2 & E2 & C2).
  exists n1, n2. split; [exact E1 |]. split; [exact E2 |].
  destruct (Z.eq_dec h1 h2) as [-> | Hne].
  - change defaultWidth with 150 in *. rewrite E1 in E2. injection E2 as <-. lia.
  - assert (HD : 0 < 2 * w) by lia.
    pose proof (Z.div_le_mono (165 * h1) (165 * h2) (2 * w) HD ltac:(lia)) as Hmono.
    pose proof (Z.mul_div_le (165 * h1) (2 * w) HD) as L1.
    pose proof (Z.mul_succ_div_gt (165 * h1) (2 * w) HD) as U1.
    pose proof (Z.mod_eq (165 * h2) (2 * w) ltac:(lia)) as M2.
    destruct C1 as [-> | [-> _]]; destruct C2 as [-> | [-> Hex]]; try lia.
    + assert (165 * h1 / (2 * w) < 165 * h2 / (2 * w)); [| lia].
      apply Z.div_lt_upper_bound; lia.
Qed.

Lemma resize_monotone_height_witness :
  exists n1 n2,
    resizeFrame 480 640 defaultWidth = Some (defaultWidth, n1)
    /\ resizeFrame 720 640 defaultWidth = Some (defaultWidth, n2)
    /\ n1 <= n2.
Proof. apply (resize_monotone_height 480 720 640); simpl; lia. Defined.

(** X6. The grid depends on the aspect ratio alone for the two usual
    camera formats: every 4:3 frame is resized to 150 x 61 and every 16:9
    frame to 150 x 46, whatever its resolution. *)
Theorem resize_usual_formats (k : Z) :
  0 < k -> 16 * k < 2 ^ 31 ->
  resizeFrame (3 * k) (4 * k) defaultWidth = Some (150, 61)
  /\ resizeFrame (9 * k) (16 * k) defaultWidth = Some (150, 46).
Proof.
  intros Hk Hb. change (2 ^ 31) with 2147483648 in Hb.
  assert (Hdiv : forall a c q r, 0 < c -> a * k = c * k * q + r * k -> 0 <= r < c ->
            a * k / (c * k) = q /\ (a * k) mod (c * k) <> 0 \/ r = 0).
  { intros a c q r Hc Ha Hr. destruct (Z.eq_dec r 0) as [-> | Hr0]; [now right | left].
    assert (Hq : a * k / (c * k) = q).
    { symmetry. apply (Z.div_unique _ _ q (r * k)); nia. }
    split; [exact Hq |]. rewrite Z.mod_eq by nia. rewrite Hq. nia. }
  split.
  - destruct (resizeFrame_height (3 * k) (4 * k)) as (n & En & Cn);
      [change (2 ^ 31) with 2147483648; lia | change (2 ^ 31) with 2147483648; lia |].
    change defaultWidth with 150. rewrite En. do 2 f_equal.
    destruct (Hdiv 495 8 61 7 ltac:(lia) ltac:(lia) ltac:(lia)) as [[Hq Hm] | ?]; [| lia].
    replace (165 * (3 * k)) with (495 * k) in Cn by lia.
    replace (2 * (4 * k)) with (8 * k) in Cn by lia.
    destruct Cn as [-> | [_ Hex]]; [exact Hq | contradiction].
  - destruct (resizeFrame_height (9 * k) (16 * k)) as (n & En & Cn);
      [change (2 ^ 31) with 2147483648; lia | change (2 ^ 31) with 2147483648; lia |].
    change defaultWidth with 150. rewrite En. do 2 f_equal.
    destruct (Hdiv 1485 32 46 13 ltac:(lia) ltac:(lia) ltac:(lia)) as [[Hq Hm] | ?]; [| lia].
    replace (165 * (9 * k)) with (1485 * k) in Cn by lia.
    replace (2 * (16 * k)) with (32 * k) in Cn by lia.
    destruct Cn as [-> | [_ Hex]]; [exact Hq | contradiction].
Qed.

Lemma resize_usual_formats_witness :
  resizeFrame (3 * 160) (4 * 160) defaultWidth = Some (150, 61)
  /\ resizeFrame (9 * 80) (16 * 80) defaultWidth = Some (150, 46).
Proof. apply (resize_usual_formats 160); [lia | simpl; lia]. Defined.

(** X7. The requested height is never negative and never above the exact
    value 165 h / (2 w); it is 0 for a frame more than 82.5 times as wide
    as it is high (and for an empty one), and at least 1 for a frame less
    than 82.5 times as wide as it is high. *)
Theorem resize_height_bounds (h w : Z) :
  0 <= h < 2 ^ 31 -> 0 < w < 2 ^ 31 ->
  exists n,
    resizeFrame h w defaultWidth = Some (defaultWidth, n)
    /\ 0 <= n /\ 2 * w * n <= 165 * h
    /\ (165 * h < 2 * w -> n = 0)
    /\ (2 * w < 165 * h -> 1 <= n).
Proof.
  intros Hh Hw. destruct (resizeFrame_height h w Hh Hw) as (n & En & Cn).
  exists n. split; [exact En |].
  assert (HD : 0 < 2 * w) by lia.
  pose proof (Z.mul_div_le (165 * h) (2 * w) HD) as L.
  pose proof (Z.mul_succ_div_gt (165 * h) (2 * w) HD) as U.
  pose proof (Z.mod_eq (165 * h) (2 * w) ltac:(lia)) as M.
  assert (H0 : 0 <= 165 * h / (2 * w)) by (apply Z.div_pos; lia).
  set (F := 165 * h / (2 * w)) in *.
  destruct Cn as [-> | [-> Hex]].
  - split; [lia |]. split; [lia |]. split; [intros; nia | intros; nia].
  - assert (HF : 165 * h = 2 * w * F) by lia.
    assert (1 <= F \/ F = 0) as [HF1 | HF0] by lia.
    + split; [lia |]. split; [nia |]. split; [intros; nia | intros; nia].
    + exfalso. (* F = 0 means h = 0, where the product is the float zero *)
      assert (h = 0) by nia. subst h.
      change defaultWidth with 150 in En. vm_compute in HF0.
      clear - En Hw. unfold resizeFrame, Py.truediv in En.
      replace (w =? 0) with false in En by (symmetry; apply Z.eqb_neq; lia).
      destruct (float_of_int_exact w) as (mw & ew & Hfw & _);
        [change (2 ^ 53) with 9007199254740992; change (2 ^ 31) with 2147483648 in Hw; lia |].
      unfold Py.int_of_float in En.
      rewrite !FloatAxioms.mul_spec, FloatAxioms.div_spec in En.
      unfold SF64mul, SF64div in En.
      rewrite float_of_int_zero, Hfw, width150_SF, ratio_055_SF in En.
      cbn in En. discriminate.
Qed.

Lemma resize_height_bounds_witness :
  exists n,
    resizeFrame 2 400 defaultWidth = Some (defaultWidth, n)
    /\ 0 <= n /\ 2 * 400 * n <= 165 * 2
    /\ (165 * 2 < 2 * 400 -> n = 0)
    /\ (2 * 400 < 165 * 2 -> 1 <= n).
Proof. apply (resize_height_bounds 2 400); simpl; lia. Defined.

End ResizeShape.

(** ** More on the diff renderer *)

Section RendererFacts.

Import GlyphMapper Renderer Session.

Lemma cellOf_visible (fr : Frame) (x y : nat) (b g r : Z) (ch : ascii) :
  10 <= gray fr y x -> processed fr y x = (b, g, r) ->
  glyph (gray fr y x) = Some ch ->
  cellOf fr (x, y) = Some (ch, compressColor r g b).
Proof.
  intros Hv Hp Hg. unfold cellOf, mapCell. cbn [fst snd].
  replace (gray fr y x <? threshold) with false
    by (symmetry; apply Z.ltb_ge; unfold threshold; lia).
  now rewrite Hp, Hg.
Qed.

(** X8. After an activation with a frame, every cell of the frame that is
    not below the threshold has a canvas item, and the item shows the
    cell's glyph in the cell's quantised colour. *)
Theorem frame_is_shown (s : State) (t : Tick) (fr : Frame) (x y : nat)
    (b g r : Z) (ch : ascii) :
  reachable s -> frame t = Some fr ->
  (x < cols fr)%nat -> (y < rows fr)%nat ->
  10 <= gray fr y x -> processed fr y x = (b, g, r) ->
  glyph (gray fr y x) = Some ch ->
  exists s' log h it,
    updateCanvas t s = Some (s', log)
    /\ charMap s' !! (x, y) = Some h /\ shown s' h = Some it
    /\ item_text it = ch /\ item_fill it = compressColor r g b
    /\ lastFrame s' !! (x, y) = Some (ch, compressColor r g b).
Proof.
  intros Hreach Hf Hx Hy Hv Hp Hg.
  pose proof (reachable_inv s Hreach) as HI.
  pose proof (cellOf_visible fr x y b g r ch Hv Hp Hg) as Hc.
  rewrite (updateCanvas_run t fr s Hf). unfold tickRun.
  set (mx := margin (winfo_width t) (cols fr) cellWidth).
  set (my := margin (winfo_height t) (rows fr) cellHeight).
  pose proof (drawAll_inv fr mx my (positions fr) s HI) as HI'.
  assert (Hin : (x, y) ∈ positions fr) by now apply positions_spec.
  pose proof (drawAll_recorded fr mx my (positions fr) s (x, y) _ Hin Hc) as Hlf.
  set (s' := (drawAll fr mx my (positions fr) (s, [])).1) in *.
  assert (Hdom : (x, y) ∈ dom (charMap s')).
  { rewrite <- (inv_dom s' HI'). apply elem_of_dom. eauto. }
  apply elem_of_dom in Hdom as [h Hh].
  destruct (inv_shown s' HI' (x, y) h Hh) as (it & Hit & Hlf').
  rewrite Hlf in Hlf'. injection Hlf' as Htext Hfill.
  eexists _, _, h, it. split; [reflexivity |]. auto 10.
Qed.

Lemma frame_is_shown_witness :
  exists s' log h it,
    updateCanvas (Scenes.window (Some Scenes.pairFrame)) Scenes.afterFifty
      = Some (s', log)
    /\ charMap s' !! (1, 0)%nat = Some h /\ shown s' h = Some it
    /\ item_text it = "-"%char /\ item_fill it = compressColor 5 70 200
    /\ lastFrame s' !! (1, 0)%nat = Some ("-"%char, compressColor 5 70 200).
Proof.
  apply (frame_is_shown Scenes.afterFifty (Scenes.window (Some Scenes.pairFrame))
           Scenes.pairFrame 1 0 200 70 5 "-");
    [exact afterFifty_reachable | reflexivity | simpl; lia | simpl; lia
    | simpl; lia | reflexivity | vm_compute; reflexivity].
Defined.

(** Items keep the options they were created with. *)
Lemma outcome_styled (fr : Frame) (mx my : Z) (s : State) (p : Pos)
    (r : State * list Call) :
  visit_outcome fr mx my s p r ->
  Forall styled (items s) -> Forall styled (items r.1).
Proof.
  intros [Hs | ch co h Hc Hn Hh | ch co Hc Hn Hh] Hall; cbn [fst items]; auto.
  - destruct h as [|k]; [exact Hall |]. cbn [canvas_itemconfig].
    apply Forall_alter; [exact Hall |]. intros it _ Hst. exact Hst.
  - apply Forall_app. split; [exact Hall |].
    apply Forall_singleton. now repeat split.
Qed.

Lemma drawAll_styled (fr : Frame) (mx my : Z) (ps : list Pos) (s : State) :
  Forall styled (items s) ->
  Forall styled (items (drawAll fr mx my ps (s, [])).1).
Proof.
  revert s. induction ps as [|p ps IH]; intros s Hall; [exact Hall |].
  rewrite drawAll_cons. cbv zeta. cbn [fst].
  apply IH. apply (outcome_styled fr mx my s p); [apply step_outcome | exact Hall].
Qed.

Lemma reachable_styled (s : State) : reachable s -> Forall styled (items s).
Proof.
  induction 1 as [|s t s' log _ IH Hstep]; [constructor |].
  destruct (frame t) as [fr|] eqn:Hf.
  - rewrite (updateCanvas_run t fr s Hf) in Hstep. injection Hstep as <- _.
    now apply drawAll_styled.
  - unfold updateCanvas in Hstep. rewrite Hf in Hstep. now injection Hstep as <- _.
Qed.

(** X9. At every moment of a session the canvas shows what [lastFrame]
    records: the item of each handle carries the glyph and the colour
    recorded for its position, in the font, anchor and tag it was created
    with. *)
Theorem canvas_mirrors_lastFrame (s : State) (p : Pos) (h : nat) :
  reachable s -> charMap s !! p = Some h ->
  exists it,
    shown s h = Some it
    /\ lastFrame s !! p = Some (item_text it, item_fill it)
    /\ styled it.
Proof.
  intros Hreach Hh. pose proof (reachable_inv s Hreach) as HI.
  destruct (inv_shown s HI p h Hh) as (it & Hit & Hlf).
  exists it. split; [exact Hit |]. split; [exact Hlf |].
  pose proof (reachable_styled s Hreach) as Hall.
  rewrite Forall_forall in Hall. apply Hall.
  destruct h as [|k]; [discriminate |]. cbn [shown] in Hit.
  apply list_elem_of_lookup. eauto.
Qed.

Lemma canvas_mirrors_lastFrame_witness :
  exists it,
    shown Scenes.afterFifty 1 = Some it
    /\ lastFrame Scenes.afterFifty !! (0, 0)%nat = Some (item_text it, item_fill it)
    /\ styled it.
Proof.
  apply (canvas_mirrors_lastFrame Scenes.afterFifty (0, 0)%nat 1);
    [exact afterFifty_reachable | vm_compute; reflexivity].
Defined.

(** X11. An activation that runs to its end, because [getFrame] gave no
    frame or because lines 83-87 gave it a processed grid, reschedules
    itself exactly once, and last: its calls are canvas calls followed by
    one [root.after(1, updateCanvas)].  An activation in which lines 83-87
    raise is not a [Tick]; it schedules nothing. *)
Theorem reschedules_once (t : Tick) (s s' : State) (log : list Call) :
  updateCanvas t s = Some (s', log) ->
  exists calls,
    log = calls ++ [after 1]
    /\ forall c, c ∈ calls -> exists h, call_id c = Some h.
Proof.
  destruct (frame t) as [fr|] eqn:Hf.
  - rewrite (updateCanvas_run t fr s Hf). intros [= _ <-].
    eexists. split; [reflexivity |]. intros c Hc.
    destruct (drawAll_calls _ _ _ _ _ c Hc) as (h & _ & Hh & _). eauto.
  - unfold updateCanvas. rewrite Hf. intros [= _ <-].
    exists []. split; [reflexivity |]. intros c Hc. inversion Hc.
Qed.

Lemma reschedules_once_witness :
  exists calls,
    [create_text 1 447 295 "%"%char "#000000"%string; after 1] = calls ++ [after 1]
    /\ forall c, c ∈ calls -> exists h, call_id c = Some h.
Proof.
  apply (reschedules_once (Scenes.window (Some (Scenes.flatFrame 1 1 50)))
           initial Scenes.afterFifty).
  vm_compute. reflexivity.
Defined.

Lemma step_count (fr : Frame) (mx my : Z) (s : State) (p : Pos) :
  length (step fr mx my (s, []) p).2 = if changed s fr p then 1%nat else 0%nat.
Proof.
  unfold changed.
  destruct (step_outcome fr mx my s p) as [Hs | ch co h Hc Hn Hh | ch co Hc Hn Hh];
    cbn [snd length].
  - destruct (cellOf fr p) as [c|]; [| reflexivity].
    now rewrite bool_decide_eq_true_2 by auto.
  - rewrite Hc. now rewrite bool_decide_eq_false_2 by exact Hn.
  - rewrite Hc. now rewrite bool_decide_eq_false_2 by exact Hn.
Qed.

Lemma drawAll_count (fr : Frame) (mx my : Z) (ps : list Pos) (s : State) :
  NoDup ps ->
  length (drawAll fr mx my ps (s, [])).2 = length (List.filter (changed s fr) ps).
Proof.
  revert s. induction ps as [|p ps IH]; intros s Hnd; [reflexivity |].
  apply NoDup_cons in Hnd as [Hp Hnd].
  rewrite drawAll_cons. cbv zeta. cbn [snd fst].
  rewrite length_app, step_count, (IH _ Hnd). cbn [List.filter].
  assert (Hsame : List.filter (changed (step fr mx my (s, []) p).1 fr) ps
                  = List.filter (changed s fr) ps).
  { apply List.filter_ext_in. intros q Hq. unfold changed.
    assert (Hne : q <> p) by (intros ->; apply Hp; now apply list_elem_of_In).
    destruct (outcome_other fr mx my s p q _ (step_outcome fr mx my s p) Hne) as [-> _].
    reflexivity. }
  rewrite Hsame. now destruct (changed s fr p).
Qed.

(** X10. The canvas calls of an activation are as many as the cells that
    changed: the cells of the frame that are not below the threshold and
    whose (glyph, colour) is not the one [lastFrame] holds. *)
Theorem work_is_changed_cells (t : Tick) (s : State) (fr : Frame) :
  frame t = Some fr ->
  exists s' log,
    updateCanvas t s = Some (s', log)
    /\ length log = S (length (List.filter (changed s fr) (positions fr))).
Proof.
  intros Hf. rewrite (updateCanvas_run t fr s Hf).
  eexists _, _. split; [reflexivity |].
  rewrite length_app. cbn [length]. unfold tickRun.
  rewrite drawAll_count by apply positions_NoDup. lia.
Qed.

Lemma work_is_changed_cells_witness :
  exists s' log,
    updateCanvas (Scenes.window (Some Scenes.pairFrame)) Scenes.afterFifty
      = Some (s', log)
    /\ length log
       = S (length (List.filter (changed Scenes.afterFifty Scenes.pairFrame)
                                (positions Scenes.pairFrame))).
Proof.
  apply (work_is_changed_cells (Scenes.window (Some Scenes.pairFrame))
           Scenes.afterFifty Scenes.pairFrame). reflexivity.
Defined.

Lemma outcome_items_grow (fr : Frame) (mx my : Z) (s : State) (p : Pos)
    (r : State * list Call) :
  visit_outcome fr mx my s p r -> (length (items s) <= length (items r.1))%nat.
Proof.
  intros [Hs | ch co h Hc Hn Hh | ch co Hc Hn Hh]; cbn [fst items]; [lia | |].
  - destruct h; cbn [canvas_itemconfig]; rewrite ?length_alter; lia.
  - rewrite length_app. cbn. lia.
Qed.

Lemma drawAll_items_grow (fr : Frame) (mx my : Z) (ps : list Pos) (s : State) :
  (length (items s) <= length (items (drawAll fr mx my ps (s, [])).1))%nat.
Proof.
  revert s. induction ps as [|p ps IH]; intros s; [cbn; lia |].
  rewrite drawAll_cons. cbv zeta. cbn [fst].
  pose proof (outcome_items_grow fr mx my s p _ (step_outcome fr mx my s p)).
  pose proof (IH (step fr mx my (s, []) p).1). lia.
Qed.

Lemma updateCanvas_keeps (t : Tick) (s s' : State) (log : list Call)
    (p : Pos) (h : nat) (it : TextItem) :
  updateCanvas t s = Some (s', log) ->
  charMap s !! p = Some h -> shown s h = Some it ->
  charMap s' !! p = Some h
  /\ (length (items s) <= length (items s'))%nat
  /\ exists it', shown s' h = Some it'
       /\ item_x it' = item_x it /\ item_y it' = item_y it.
Proof.
  destruct (frame t) as [fr|] eqn:Hf.
  - rewrite (updateCanvas_run t fr s Hf). intros [= <- _] Hh Hit.
    unfold tickRun. split; [now apply drawAll_handle_stable |].
    split; [apply drawAll_items_grow | now apply drawAll_place].
  - unfold updateCanvas. rewrite Hf. intros [= <- _] Hh Hit.
    split; [exact Hh |]. split; [lia |]. exists it. auto.
Qed.

(** X12. Handles are never destroyed and items never moved: through any
    number of activations, whatever the frames and however the canvas is
    resized, a position keeps its handle, the canvas loses no item, and
    the handle's item stays at the coordinates it had. *)
Theorem items_never_move (ts : list Tick) (s s' : State)
    (p : Pos) (h : nat) (it : TextItem) :
  runTicks ts s = Some s' ->
  charMap s !! p = Some h -> shown s h = Some it ->
  charMap s' !! p = Some h
  /\ (length (items s) <= length (items s'))%nat
  /\ exists it', shown s' h = Some it'
       /\ item_x it' = item_x it /\ item_y it' = item_y it.
Proof.
  revert s it. induction ts as [|t ts IH]; intros s it Hrun Hh Hit.
  - injection Hrun as <-. split; [exact Hh |]. split; [lia |]. exists it. auto.
  - cbn [runTicks] in Hrun.
    destruct (updateCanvas t s) as [[s1 log]|] eqn:Ht; [| discriminate].
    destruct (updateCanvas_keeps t s s1 log p h it Ht Hh Hit)
      as (Hh1 & Hlen1 & it1 & Hit1 & Hx1 & Hy1).
    destruct (IH s1 it1 Hrun Hh1 Hit1) as (Hh' & Hlen' & it' & Hit' & Hx' & Hy').
    split; [exact Hh' |]. split; [lia |].
    exists it'. split; [exact Hit' |]. split; congruence.
Qed.

(** The run [resizedRun] from the state [afterFifty]: in the shrunk window
    the item of position (0, 0) is updated where it is, at (447, 295), and
    in the full window a second item is created next to it. *)
Example resizedRun_calls :
  match updateCanvas (Scenes.smallWindow (Some (Scenes.flatFrame 1 1 200)))
                     Scenes.afterFifty with
  | Some (s1, log1) =>
      log1 = [itemconfig 1 "-" "#c0c0c0"; after 1]
      /\ match updateCanvas (Scenes.window (Some Scenes.pairFrame)) s1 with
         | Some (s2, log2) =>
             log2 = [create_text 2 450 295 "-" "#0040c0"; after 1]
             /\ s2 = Session.afterResizedRun
             /\ length (items s2) = 2%nat
         | None => False
         end
  | None => False
  end.
Proof. vm_compute. repeat split; reflexivity. Qed.

Lemma items_never_move_witness :
  charMap Session.afterResizedRun !! (0, 0)%nat = Some 1%nat
  /\ (length (items Scenes.afterFifty) <= length (items Session.afterResizedRun))%nat
  /\ exists it', shown Session.afterResizedRun 1 = Some it'
       /\ item_x it' = item_x (mkItem 447 295 "%" "#000000" "TkFixedFont" "nw" "asciiFrame")
       /\ item_y it' = item_y (mkItem 447 295 "%" "#000000" "TkFixedFont" "nw" "asciiFrame").
Proof.
  apply (items_never_move Session.resizedRun
           Scenes.afterFifty Session.afterResizedRun (0, 0)%nat 1);
    vm_compute; reflexivity.
Defined.

Lemma drawAll_updated (fr : Frame) (mx my : Z) (ps : list Pos) (s : State)
    (h : nat) (ch : ascii) (co : string) :
  itemconfig h ch co ∈ (drawAll fr mx my ps (s, [])).2 ->
  NoDup ps ->
  exists p, p ∈ ps /\ cellOf fr p = Some (ch, co)
    /\ charMap s !! p = Some h /\ lastFrame s !! p <> Some (ch, co).
Proof.
  revert s. induction ps as [|p ps IH]; intros s Hin Hnd; [inversion Hin |].
  apply NoDup_cons in Hnd as [Hp Hnd].
  rewrite drawAll_cons in Hin. cbv zeta in Hin. cbn [snd fst] in Hin.
  pose proof (step_outcome fr mx my s p) as Hout.
  apply elem_of_app in Hin as [Hin | Hin].
  - exists p. split; [left |].
    destruct Hout as [Hs | ch' co' h' Hc Hn Hh | ch' co' Hc Hn Hh]; cbn [snd] in Hin.
    + inversion Hin.
    + apply list_elem_of_singleton in Hin. injection Hin as -> -> ->. auto.
    + apply list_elem_of_singleton in Hin. discriminate.
  - destruct (IH _ Hin Hnd) as (q & Hq & Hc & Hh & Hn).
    assert (Hne : q <> p) by (intros ->; contradiction).
    destruct (outcome_other fr mx my s p q _ Hout Hne) as [Elf Ecm].
    exists q. split; [now right |]. split; [exact Hc |].
    rewrite <- Ecm, <- Elf. auto.
Qed.

(** X13. No update is redundant: every [itemconfig] of an activation acts
    on the item of a cell of the frame, an item that existed before the
    activation and showed another glyph or another colour than the one it
    is given. *)
Theorem updates_are_changes (s s' : State) (t : Tick) (fr : Frame)
    (log : list Call) (h : nat) (ch : ascii) (co : string) :
  reachable s -> frame t = Some fr ->
  updateCanvas t s = Some (s', log) ->
  itemconfig h ch co ∈ log ->
  exists x y it,
    (x < cols fr)%nat /\ (y < rows fr)%nat
    /\ cellOf fr (x, y) = Some (ch, co)
    /\ charMap s !! (x, y) = Some h
    /\ shown s h = Some it
    /\ (item_text it, item_fill it) <> (ch, co).
Proof.
  intros Hreach Hf Hrun Hin. pose proof (reachable_inv s Hreach) as HI.
  rewrite (updateCanvas_run t fr s Hf) in Hrun. injection Hrun as _ <-.
  apply elem_of_app in Hin as [Hin | Hin];
    [| apply list_elem_of_singleton in Hin; discriminate].
  destruct (drawAll_updated _ _ _ _ _ h ch co Hin (positions_NoDup fr))
    as ([x y] & Hp & Hc & Hh & Hn).
  apply positions_spec in Hp as [Hx Hy]. cbn [fst snd] in Hx, Hy.
  destruct (inv_shown s HI (x, y) h Hh) as (it & Hit & Hlf).
  exists x, y, it. repeat split; try assumption. congruence.
Qed.

Lemma updates_are_changes_witness :
  exists x y it,
    (x < cols (Scenes.flatFrame 1 1 200))%nat /\ (y < rows (Scenes.flatFrame 1 1 200))%nat
    /\ cellOf (Scenes.flatFrame 1 1 200) (x, y) = Some ("-"%char, "#c0c0c0"%string)
    /\ charMap Scenes.afterFifty !! (x, y) = Some 1%nat
    /\ shown Scenes.afterFifty 1 = Some it
    /\ (item_text it, item_fill it) <> ("-"%char, "#c0c0c0"%string).
Proof.
  refine (updates_are_changes Scenes.afterFifty
            (mkState {[ (0, 0)%nat := ("-"%char, "#c0c0c0"%string) ]}
                     {[ (0, 0)%nat := 1%nat ]}
                     [mkItem 447 295 "-" "#c0c0c0" "TkFixedFont" "nw" "asciiFrame"])
            (Scenes.window (Some (Scenes.flatFrame 1 1 200)))
            (Scenes.flatFrame 1 1 200)
            [itemconfig 1 "-" "#c0c0c0"; after 1] 1 "-" "#c0c0c0" _ _ _ _);
    [exact afterFifty_reachable | reflexivity | vm_compute; reflexivity | left].
Defined.

Lemma positions_length (fr : Frame) :
  length (positions fr) = (rows fr * cols fr)%nat.
Proof.
  assert (Hgen : forall (ys xs : list nat),
            length (flat_map (fun y => map (fun x => (x, y)) xs) ys)
            = (length ys * length xs)%nat).
  { intros ys xs. induction ys as [|y ys IH]; [reflexivity |].
    cbn [flat_map length]. rewrite length_app, IH, length_map. lia. }
  unfold positions. now rewrite Hgen, !length_seq.
Qed.

Lemma runTicks_reachable (ts : list Tick) (s s' : State) :
  reachable s -> runTicks ts s = Some s' -> reachable s'.
Proof.
  revert s. induction ts as [|t ts IH]; intros s Hreach Hrun.
  - now injection Hrun as <-.
  - cbn [runTicks] in Hrun.
    destruct (updateCanvas t s) as [[s1 log]|] eqn:Ht; [| discriminate].
    apply (IH s1); [| exact Hrun]. exact (reach_tick s t s1 log Hreach Ht).
Qed.

(** The positions that have a handle lie in the grid of [R] rows and [C]
    columns. *)
Lemma updateCanvas_keys (R C : nat) (t : Tick) (s s' : State) (log : list Call) :
  within R C t -> updateCanvas t s = Some (s', log) ->
  (forall p, is_Some (charMap s !! p) -> (p.1 < C)%nat /\ (p.2 < R)%nat) ->
  forall p, is_Some (charMap s' !! p) -> (p.1 < C)%nat /\ (p.2 < R)%nat.
Proof.
  intros Hw Hrun Hkeys p Hp. destruct (frame t) as [fr|] eqn:Hf.
  - rewrite (updateCanvas_run t fr s Hf) in Hrun. injection Hrun as <- _.
    destruct (Hw fr Hf) as [HR HC]. unfold tickRun in Hp.
    destruct (decide (p ∈ positions fr)) as [Hin | Hnin].
    + apply positions_spec in Hin. lia.
    + destruct (drawAll_other fr (margin (winfo_width t) (cols fr) cellWidth)
                  (margin (winfo_height t) (rows fr) cellHeight)
                  (positions fr) s p Hnin) as [_ Ecm].
      rewrite Ecm in Hp. auto.
  - unfold updateCanvas in Hrun. rewrite Hf in Hrun. injection Hrun as <- _. auto.
Qed.

Lemma runTicks_keys (R C : nat) (ts : list Tick) (s s' : State) :
  Forall (within R C) ts -> runTicks ts s = Some s' ->
  (forall p, is_Some (charMap s !! p) -> (p.1 < C)%nat /\ (p.2 < R)%nat) ->
  forall p, is_Some (charMap s' !! p) -> (p.1 < C)%nat /\ (p.2 < R)%nat.
Proof.
  revert s. induction ts as [|t ts IH]; intros s Hall Hrun Hkeys.
  - now injection Hrun as <-.
  - apply Forall_cons in Hall as [Ht Hall]. cbn [runTicks] in Hrun.
    destruct (updateCanvas t s) as [[s1 log]|] eqn:Hs1; [| discriminate].
    apply (IH s1 Hall Hrun). exact (updateCanvas_keys R C t s s1 log Ht Hs1 Hkeys).
Qed.

(** X14. The cache of items is bounded by the grid: in a session whose
    frames are at most [R] rows by [C] columns the canvas never holds more
    than [R * C] items, however many frames are rendered. *)
Theorem canvas_is_bounded (R C : nat) (ts : list Tick) (s : State) :
  Forall (within R C) ts -> runTicks ts initial = Some s ->
  (length (items s) <= R * C)%nat /\ size (charMap s) = length (items s).
Proof.
  intros Hall Hrun.
  pose proof (runTicks_reachable ts initial s reach_initial Hrun) as Hreach.
  pose proof (reachable_inv s Hreach) as HI.
  split; [| exact (inv_size s HI)].
  rewrite <- (inv_size s HI).
  assert (Hkeys : forall p, is_Some (charMap s !! p) -> (p.1 < C)%nat /\ (p.2 < R)%nat).
  { apply (runTicks_keys R C ts initial s Hall Hrun).
    intros p [h Hp]. cbn in Hp. now rewrite lookup_empty in Hp. }
  set (grid := positions (Scenes.flatFrame R C 0)).
  assert (Hsub : dom (charMap s) ⊆ list_to_set grid).
  { intros p Hp. apply elem_of_dom in Hp. apply elem_of_list_to_set.
    apply positions_spec. cbn. destruct (Hkeys p Hp). lia. }
  apply subseteq_size in Hsub.
  rewrite size_dom in Hsub.
  rewrite size_list_to_set in Hsub by apply positions_NoDup.
  unfold grid in Hsub. rewrite positions_length in Hsub. exact Hsub.
Qed.

Lemma canvas_is_bounded_witness :
  (length (items Scenes.afterPair) <= 1 * 2)%nat
  /\ size (charMap Scenes.afterPair) = length (items Scenes.afterPair).
Proof.
  apply (canvas_is_bounded 1 2
           [Scenes.window (Some Scenes.pairFrame); Scenes.window None]).
  - apply List.Forall_cons; [intros fr [= <-]; simpl; lia |].
    apply List.Forall_cons; [intros fr [=] | constructor].
  - vm_compute. reflexivity.
Defined.

End RendererFacts.

(** ** The frame source *)

Section FrameSource.

Import Fetcher.

Context {F : Type}.

Implicit Types (s : St F) (e : Event F) (es : list (Event F)).

Lemma run_snoc es e s :
  run (es ++ [e]) s = match run es s with Some s1 => fire e s1 | None => None end.
Proof.
  revert s. induction es as [|e0 es IH]; intros s; cbn [app run].
  - now destruct (fire e s).
  - destruct (fire e0 s) as [s1|]; [apply IH | reflexivity].
Qed.

Lemma delivered_snoc es e :
  delivered (es ++ [e])
  = delivered es ++ match e with Read (Some f) => [f] | _ => [] end.
Proof.
  unfold delivered. rewrite omap_app. f_equal.
  destruct e as [| [f|] | | | |]; reflexivity.
Qed.

(** X15. [getFrame] returns the latest frame the camera delivered, or
    [None] when it has delivered none; the one exception is the moment
    between a read and its store, when it still returns the frame before
    the latest. *)
Theorem getFrame_is_latest es s :
  run es init = Some s ->
  match pc s with
  | AtWrite f =>
      last (delivered es) = Some f
      /\ getFrame s = last (removelast (delivered es))
  | _ => getFrame s = last (delivered es)
  end.
Proof.
  revert s. induction es as [|e es IH] using rev_ind; intros s Hrun.
  - injection Hrun as <-. reflexivity.
  - rewrite run_snoc in Hrun. destruct (run es init) as [s0|]; [| discriminate].
    specialize (IH s0 eq_refl). rewrite delivered_snoc.
    destruct s0 as [p0 cf0 ir0]. unfold fire in Hrun. cbn [pc currentFrame isRunning] in *.
    unfold getFrame in *. cbn [currentFrame] in *.
    destruct e as [| [f|] | | | |]; destruct p0 as [| | f0 | |];
      try discriminate; injection Hrun as <-; cbn [pc currentFrame];
      rewrite ?app_nil_r; try exact IH.
    + destruct ir0; exact IH.
    + rewrite last_snoc, removelast_last. auto.
    + destruct IH as [IH _]. now rewrite IH.
Qed.

Lemma fire_keeps_frame e s s' :
  fire e s = Some s' -> is_Some (getFrame s) -> is_Some (getFrame s').
Proof.
  destruct s as [p cf ir]. unfold fire, getFrame. cbn [pc currentFrame isRunning].
  destruct e as [| [f|] | | | |]; destruct p as [| | f0 | |];
    try discriminate; intros [= <-]; cbn [currentFrame]; eauto.
Qed.

(** X16. Once a frame is available it stays available: after [getFrame]
    has returned a frame it never returns [None] again, whatever the two
    threads do, and also after the camera has failed or [stop] was called. *)
Theorem frame_stays_available es s s' :
  run es s = Some s' -> is_Some (getFrame s) -> is_Some (getFrame s').
Proof.
  revert s. induction es as [|e es IH]; intros s Hrun Hs.
  - now injection Hrun as <-.
  - cbn [run] in Hrun. destruct (fire e s) as [s1|] eqn:He; [| discriminate].
    apply (IH s1 Hrun). exact (fire_keeps_frame e s s1 He Hs).
Qed.

Lemma exited_stays es s s' :
  pc s = Exited -> run es s = Some s' ->
  pc s' = Exited /\ getFrame s' = getFrame s /\ Forall by_renderer es.
Proof.
  revert s. induction es as [|e es IH]; intros s Hpc Hrun.
  - injection Hrun as <-. auto.
  - cbn [run] in Hrun. destruct (fire e s) as [s1|] eqn:He; [| discriminate].
    destruct s as [p cf ir]. cbn [pc] in Hpc. subst p.
    unfold fire in He. cbn [pc currentFrame isRunning] in He.
    destruct e as [| [f|] | | | |]; try discriminate; injection He as <-;
      pose proof (fun H => IH _ H Hrun) as HH; cbn [pc] in HH;
      destruct (HH eq_refl) as (H1 & H2 & H3);
      (split; [exact H1 |]); (split; [exact H2 |]);
      apply Forall_cons; (split; [| exact H3]); [left | right]; reflexivity.
Qed.

(** X17. A failed read is final: the thread leaves its loop without
    storing anything and makes no further step (there is no retry), so
    from then on [getFrame] keeps returning what it returned before the
    failure. *)
Theorem failed_read_is_final es s s1 s' :
  fire (Read None) s = Some s1 -> run es s1 = Some s' ->
  pc s' = Exited /\ getFrame s' = getFrame s /\ Forall by_renderer es.
Proof.
  intros Hfail Hrun.
  assert (H1 : pc s1 = Exited /\ getFrame s1 = getFrame s).
  { destruct s as [p cf ir]. unfold fire in Hfail. cbn [pc currentFrame isRunning] in Hfail.
    destruct p; try discriminate. injection Hfail as <-. auto. }
  destruct H1 as [Hpc Hget].
  destruct (exited_stays es s1 s' Hpc Hrun) as (E1 & E2 & E3).
  rewrite <- Hget. auto.
Qed.

Lemma stopped_budget es s s' :
  isRunning s = false -> run es s = Some s' ->
  isRunning s' = false
  /\ (length (List.filter is_read es) <= reads_left (pc s))%nat
  /\ (length (List.filter is_write es) <= writes_left (pc s))%nat.
Proof.
  revert s. induction es as [|e es IH]; intros s Hstop Hrun.
  - injection Hrun as <-. cbn. repeat split; [exact Hstop | lia | lia].
  - cbn [run] in Hrun. destruct (fire e s) as [s1|] eqn:He; [| discriminate].
    destruct s as [p cf ir]. cbn [isRunning] in Hstop. subst ir.
    unfold fire in He. cbn [pc currentFrame isRunning] in He.
    destruct e as [| [f|] | | | |]; destruct p as [| | f0 | |];
      try discriminate; injection He as <-;
      pose proof (fun H => IH _ H Hrun) as HH; cbn [isRunning] in HH;
      destruct (HH eq_refl) as (H1 & H2 & H3);
      cbn [List.filter is_read is_write length pc reads_left writes_left] in *;
      repeat split; try exact H1; lia.
Qed.

(** X18. After [stop()] has cleared [isRunning] the flag stays cleared and
    the capture thread winds down: in everything that follows it reads the
    camera at most once more and replaces the current frame at most once
    more. *)
Theorem stop_winds_down es s s1 s' :
  fire Stop s = Some s1 -> run es s1 = Some s' ->
  isRunning s' = false
  /\ (length (List.filter is_read es) <= 1)%nat
  /\ (length (List.filter is_write es) <= 1)%nat.
Proof.
  intros Hstop Hrun.
  assert (Hflag : isRunning s1 = false).
  { unfold fire in Hstop. destruct (pc s); now injection Hstop as <-. }
  destruct (stopped_budget es s1 s' Hflag Hrun) as (H1 & H2 & H3).
  split; [exact H1 |].
  assert (reads_left (pc s1) <= 1)%nat by (destruct (pc s1); cbn; lia).
  assert (writes_left (pc s1) <= 1)%nat by (destruct (pc s1); cbn; lia).
  lia.
Qed.

End FrameSource.

(** The statements above, on short interleavings. *)

Section FrameSourceRuns.

Import Fetcher.

Lemma getFrame_is_latest_witness :
  match pc (mkSt AtSleep (Some 7%nat) true) with
  | AtWrite f =>
      last (delivered [Check; Read (Some 7%nat); GetFrame; Write]) = Some f
      /\ getFrame (mkSt AtSleep (Some 7%nat) true)
         = last (removelast (delivered [Check; Read (Some 7%nat); GetFrame; Write]))
  | _ => getFrame (mkSt AtSleep (Some 7%nat) true)
         = last (delivered [Check; Read (Some 7%nat); GetFrame; Write])
  end.
Proof.
  apply (getFrame_is_latest [Check; Read (Some 7%nat); GetFrame; Write]
           (mkSt AtSleep (Some 7%nat) true)).
  reflexivity.
Defined.

Lemma frame_stays_available_witness :
  is_Some (getFrame (mkSt (@Exited nat) (Some 7%nat) false)).
Proof.
  apply (frame_stays_available [Stop; Sleep; Check; GetFrame]
           (mkSt AtSleep (Some 7%nat) true)); [reflexivity | eexists; reflexivity].
Defined.

Lemma failed_read_is_final_witness :
  pc (mkSt (@Exited nat) (Some 7%nat) false) = Exited
  /\ getFrame (mkSt (@Exited nat) (Some 7%nat) false)
     = getFrame (mkSt AtRead (Some 7%nat) true)
  /\ Forall by_renderer [@GetFrame nat; Stop; GetFrame].
Proof.
  apply (failed_read_is_final [GetFrame; Stop; GetFrame]
           (mkSt AtRead (Some 7%nat) true) (mkSt Exited (Some 7%nat) true));
    reflexivity.
Defined.

Lemma stop_winds_down_witness :
  isRunning (mkSt (@Exited nat) (Some 9%nat) false) = false
  /\ (length (List.filter is_read [Read (Some 9%nat); Write; Sleep; Check]) <= 1)%nat
  /\ (length (List.filter is_write [Read (Some 9%nat); Write; Sleep; Check]) <= 1)%nat.
Proof.
  apply (stop_winds_down [Read (Some 9%nat); Write; Sleep; Check]
           (mkSt AtRead (Some 7%nat) true) (mkSt AtRead (Some 7%nat) false));
    reflexivity.
Defined.

End FrameSourceRuns.
